(** * blockchain-api: classification of blockscout token transfers

    Shallow embedding of [packages/blockchain-api/src/blockscout.ts] and
    proofs about the feed it builds: grouping of raw rows by transaction
    hash, exchange legs, fee-currency disambiguation, the type resolver,
    sorting, and the address registry. *)

From Stdlib Require Import QArith Qround Qabs Lqa Ascii String DecimalString.
From stdpp Require Import gmap strings list sorting.

Local Close Scope Q_scope.
Local Open Scope string_scope.

(** ** JavaScript values used by the source *)

Module JS.

(** [String.prototype.toLowerCase], on the ASCII letters.  Addresses and
    hashes are ASCII hex strings; case mapping of characters outside ASCII
    is left out (such bytes are kept as they are). *)
Definition lower_ascii (c : ascii) : ascii :=
  let n := N_of_ascii c in
  if ((65 <=? n) && (n <=? 90))%N then ascii_of_N (n + 32) else c.

Fixpoint toLowerCase (s : string) : string :=
  match s with
  | EmptyString => EmptyString
  | String c s' => String (lower_ascii c) (toLowerCase s')
  end.

(** Truthiness of a string: every string but the empty one. *)
Definition truthy (s : string) : bool := negb (String.eqb s EmptyString).

(** Truthiness of [string | undefined]. *)
Definition truthy_opt (o : option string) : bool :=
  match o with
  | Some s => truthy s
  | None => false
  end.

(** A JavaScript number: a double, kept as the rational it is, or NaN.
    Infinities are left out. *)
Inductive number : Type :=
| Num (q : Q)
| NaN.

(** [floor (log2 (a / d))] for positive [a] and [d]. *)
Definition floor_log2 (a d : Z) : Z :=
  let k := (Z.log2 a - Z.log2 d)%Z in
  if (d * 2 ^ Z.max k 0 <=? a * 2 ^ Z.max (- k) 0)%Z then k else (k - 1)%Z.

(** The integer nearest to [n / d], the even one of two equally near. *)
Definition round_half_even (n d : Z) : Z :=
  let f := (n / d)%Z in
  match (2 * (n mod d) ?= d)%Z with
  | Lt => f
  | Gt => (f + 1)%Z
  | Eq => if Z.even f then f else (f + 1)%Z
  end.

(** The double nearest to a rational (IEEE 754 binary64, round to nearest,
    ties to even): a mantissa of 53 bits, the exponent of its last bit not
    below -1074.  Above the largest double the source has Infinity; the
    result here is the rounding to 53 bits all the same. *)
Definition toDouble (q : Q) : Q :=
  let a := Z.abs (Qnum (Qred q)) in
  let d := Z.pos (Qden (Qred q)) in
  if (a =? 0)%Z then 0%Q
  else
    let e := Z.max (floor_log2 a d - 52) (- 1074) in
    let m := round_half_even (a * 2 ^ Z.max (- e) 0) (d * 2 ^ Z.max e 0) in
    Qred (inject_Z (Z.sgn (Qnum (Qred q)) * m * 2 ^ Z.max e 0)
          / inject_Z (2 ^ Z.max (- e) 0)).

Definition number_sub (a b : number) : number :=
  match a, b with
  | Num x, Num y => Num (x - y)
  | _, _ => NaN
  end.

Definition number_mul (a b : number) : number :=
  match a, b with
  | Num x, Num y => Num (x * y)
  | _, _ => NaN
  end.

(** [v > 0] for a comparator result [v] ([NaN] counts as [+0]). *)
Definition number_pos (v : number) : bool :=
  match v with
  | Num x => (0 <? Qnum x)%Z
  | NaN => false
  end.

(** [Array.prototype.sort(comparefn)]: a stable sort (ECMAScript 2019,
    23.1.3.27), here by insertion.  [x] moves behind [y] only when
    [comparefn(x, y) > 0], so elements that compare equal keep their
    order. *)
Fixpoint sort_insert {A} (comparefn : A -> A -> number) (x : A) (l : list A)
  : list A :=
  match l with
  | [] => [x]
  | y :: l' =>
      if number_pos (comparefn x y) then y :: sort_insert comparefn x l'
      else x :: l
  end.

Definition sort {A} (comparefn : A -> A -> number) (l : list A) : list A :=
  foldr (sort_insert comparefn) [] l.

(** [Array.prototype.find], returning the index with the element. *)
Fixpoint find_from {A} (p : A -> bool) (i : nat) (l : list A)
  : option (nat * A) :=
  match l with
  | [] => None
  | x :: l' => if p x then Some (i, x) else find_from p (S i) l'
  end.

(** [Map<string, V>]: an association list in insertion order.  [set] on
    a key that is present replaces the value and keeps the position of
    the key; on a new key it appends. *)
Definition Map (V : Type) : Type := list (string * V).

Fixpoint Map_get {V} (k : string) (m : Map V) : option V :=
  match m with
  | [] => None
  | (k', v) :: m' => if String.eqb k' k then Some v else Map_get k m'
  end.

Fixpoint Map_set {V} (k : string) (v : V) (m : Map V) : Map V :=
  match m with
  | [] => [(k, v)]
  | (k', v') :: m' =>
      if String.eqb k' k then (k', v) :: m' else (k', v') :: Map_set k v m'
  end.

End JS.

(** ** bignumber.js *)

Module BigNumber.

(** A [BigNumber]: an exact decimal, kept as a rational, or NaN.
    Infinities are left out. *)
Inductive t : Type :=
| BN (q : Q)
| BNaN.

Definition ofNumber (n : JS.number) : t :=
  match n with
  | JS.Num q => BN q
  | JS.NaN => BNaN
  end.

(** [toNumber()]: the nearest double. *)
Definition toNumber (x : t) : JS.number :=
  match x with
  | BN q => JS.Num (JS.toDouble q)
  | BNaN => JS.NaN
  end.

(** [toNumber()] without the rounding, for the places where the rounding
    changes nothing: the source reads an integer below 2^53 there (unix
    seconds, a block number; [toDouble_integer] below), or looks only at the
    sign of the result (the comparator of the sort by value;
    [toDouble_sign] below). *)
Definition toNumberExact (x : t) : JS.number :=
  match x with
  | BN q => JS.Num q
  | BNaN => JS.NaN
  end.

Definition plus (x y : t) : t :=
  match x, y with
  | BN a, BN b => BN (a + b)
  | _, _ => BNaN
  end.

Definition minus (x y : t) : t :=
  match x, y with
  | BN a, BN b => BN (a - b)
  | _, _ => BNaN
  end.

Definition multipliedBy (x y : t) : t :=
  match x, y with
  | BN a, BN b => BN (a * b)
  | _, _ => BNaN
  end.

(** A quotient is rounded to [DECIMAL_PLACES] = 20 places in the mode
    ROUND_HALF_UP, the defaults of bignumber.js: to the nearest, a tie away
    from zero. *)
Definition DECIMAL_PLACES : Z := 20.

Definition round (q : Q) : Q :=
  let s := (q * inject_Z (10 ^ DECIMAL_PLACES))%Q in
  let n := if Qle_bool 0 s then Qfloor (s + (1 # 2)) else Qceiling (s - (1 # 2)) in
  (inject_Z n / inject_Z (10 ^ DECIMAL_PLACES))%Q.

(** A zero divisor gives NaN in the model (the source only divides by
    [WEI_PER_GOLD]). *)
Definition dividedBy (x y : t) : t :=
  match x, y with
  | BN a, BN b => if Qeq_bool b 0 then BNaN else BN (round (a / b))
  | _, _ => BNaN
  end.

Definition isEqualTo (x y : t) : bool :=
  match x, y with
  | BN a, BN b => Qeq_bool a b
  | _, _ => false
  end.

End BigNumber.

(** ** Errors *)

(** A computation that returns or throws [new Error(msg)]. *)
Inductive result (A : Type) : Type :=
| Ok (a : A)
| Throw (msg : string).
Arguments Ok {A} a.
Arguments Throw {A} msg.

Definition bind {A B} (c : result A) (k : A -> result B) : result B :=
  match c with
  | Ok a => k a
  | Throw msg => Throw msg
  end.

Notation "'let*' x ':=' c 'in' k" := (bind c (fun x => k))
  (at level 10, x pattern, c at level 100, k at level 200).

(** ** Rows of the block explorer *)

(** [interface BlockscoutTransaction]. *)
Record BlockscoutTransaction : Type := {
  value : string;
  txreceipt_status : string;
  transactionIndex : string;
  tokenSymbol : string;
  tokenName : string;
  tokenDecimal : string;
  to : string;
  timeStamp : string;
  nonce : string;
  isError : string;
  input : string;
  hash : string;
  gasUsed : string;
  gasPrice : string;
  gas : string;
  from : string;
  cumulativeGasUsed : string;
  contractAddress : string;
  confirmations : string;
  blockNumber : string;
  blockHash : string;
}.

(** ** ./schema *)

(** Modelled from the spec: the enum [EventTypes] of [./schema], whose
    declaration is missing (section 3, "EventType taxonomy"). *)
Inductive EventTypes : Type :=
| EXCHANGE
| RECEIVED
| SENT
| FAUCET
| VERIFICATION_FEE
| VERIFICATION_REWARD
| ESCROW_SENT
| ESCROW_RECEIVED.

(** The two shapes pushed by [getFeedEvents] and [getFeedRewards]. *)
Module ExchangeEvent.
Record t : Type := {
  type : EventTypes;
  timestamp : JS.number;
  block : JS.number;
  inSymbol : string;
  inValue : JS.number;
  outSymbol : string;
  outValue : JS.number;
  hash : string;
}.
End ExchangeEvent.

Module TransferEvent.
Record t : Type := {
  type : EventTypes;
  timestamp : JS.number;
  block : JS.number;
  value : JS.number;
  address : string;
  comment : string;
  symbol : string;
  hash : string;
}.
End TransferEvent.

Inductive EventInterface : Type :=
| Exchange (e : ExchangeEvent.t)
| Transfer (e : TransferEvent.t).

Definition event_timestamp (e : EventInterface) : JS.number :=
  match e with
  | Exchange x => ExchangeEvent.timestamp x
  | Transfer x => TransferEvent.timestamp x
  end.

Definition event_block (e : EventInterface) : JS.number :=
  match e with
  | Exchange x => ExchangeEvent.block x
  | Transfer x => TransferEvent.block x
  end.

(** The object literals pushed by [getTokenTransactions]. *)
Module MoneyAmount.
Record t : Type := {
  value : string;
  currencyCode : string;
  timestamp : JS.number;
}.
End MoneyAmount.

Module TokenExchange.
Record t : Type := {
  type : EventTypes;
  timestamp : JS.number;
  block : string;
  amount : MoneyAmount.t;
  makerAmount : MoneyAmount.t;
  takerAmount : MoneyAmount.t;
  hash : string;
}.
End TokenExchange.

Module TokenTransfer.
Record t : Type := {
  type : EventTypes;
  timestamp : JS.number;
  block : string;
  amount : MoneyAmount.t;
  address : string;
  comment : string;
  hash : string;
}.
End TokenTransfer.

Inductive TokenEvent : Type :=
| TExchange (e : TokenExchange.t)
| TTransfer (e : TokenTransfer.t).

Definition token_event_timestamp (e : TokenEvent) : JS.number :=
  match e with
  | TExchange x => TokenExchange.timestamp x
  | TTransfer x => TokenTransfer.timestamp x
  end.

Definition token_event_block (e : TokenEvent) : string :=
  match e with
  | TExchange x => TokenExchange.block x
  | TTransfer x => TokenTransfer.block x
  end.

Definition token_event_amount (e : TokenEvent) : MoneyAmount.t :=
  match e with
  | TExchange x => TokenExchange.amount x
  | TTransfer x => TokenTransfer.amount x
  end.

(** ** What the file imports *)

(** The answer of [getContractAddresses()] in [./utils]. *)
Module ContractAddresses.
Record t : Type := {
  tokenAddressMapping : gmap string string;
  attestationsAddress : string;
  escrowAddress : string;
  goldTokenAddress : string;
  stableTokenAddress : string;
}.
End ContractAddresses.

(** The constants of [./config], the helpers of [./utils] and the parts of
    bignumber.js that read and print strings: the development is parametric
    in them. *)
Class Imports : Type := {
  FAUCET_ADDRESS : string;
  VERIFICATION_REWARDS_ADDRESS : string;
  formatCommentString : string -> string;
  getContractAddresses : ContractAddresses.t;
  newBigNumber : string -> BigNumber.t;
  BigNumber_toString : BigNumber.t -> string;
}.

(** [const WEI_PER_GOLD = Math.pow(10, 18)]. *)
Definition WEI_PER_GOLD : JS.number := JS.Num (inject_Z (10 ^ 18)).

(** ** The data source *)

(** The fields of [class BlockscoutAPI]; [None] is [undefined]. *)
Record BlockscoutAPI : Type := {
  tokenAddressMapping : option (gmap string string);
  attestationsAddress : option string;
  escrowAddress : option string;
  goldTokenAddress : option string;
  stableTokenAddress : option string;
}.

(** Requests that leave the process. *)
Inductive Outbound : Type :=
| ResolveContractAddresses.

Section Classifier.
Context {imports : Imports}.

(** [ensureTokenAddresses]: the new state, and the requests made. *)
Definition ensureTokenAddresses (this : BlockscoutAPI)
  : BlockscoutAPI * list Outbound :=
  if bool_decide (is_Some (tokenAddressMapping this))
     && JS.truthy_opt (attestationsAddress this)
     && JS.truthy_opt (escrowAddress this)
     && JS.truthy_opt (goldTokenAddress this)
     && JS.truthy_opt (stableTokenAddress this)
  then (this, [])
  else
    let addresses := getContractAddresses in
    ({| attestationsAddress := Some (ContractAddresses.attestationsAddress addresses);
        tokenAddressMapping := Some (ContractAddresses.tokenAddressMapping addresses);
        escrowAddress := Some (ContractAddresses.escrowAddress addresses);
        goldTokenAddress := Some (ContractAddresses.goldTokenAddress addresses);
        stableTokenAddress := Some (ContractAddresses.stableTokenAddress addresses) |},
     [ResolveContractAddresses]).

(** [getTokenAtAddress].  The mapping is read by its own keys ([in] would
    also find a key inherited from [Object.prototype]; no lower-case address
    is one). *)
Definition getTokenAtAddress (this : BlockscoutAPI) (tokenAddress : string)
  : result string :=
  match tokenAddressMapping this with
  | Some mapping =>
      let lowerCaseTokenAddress := JS.toLowerCase tokenAddress in
      match mapping !! lowerCaseTokenAddress with
      | Some token => Ok token
      | None =>
          Throw ("No token corresponding to " ++ lowerCaseTokenAddress
                 ++ ". Check web3 provider is for correct network.")
      end
  | None => Throw "Cannot find tokenAddressMapping"
  end.

Definition getAttestationAddress (this : BlockscoutAPI) : result string :=
  match attestationsAddress this with
  | Some a => if JS.truthy a then Ok a else Throw "Cannot find attestation address"
  | None => Throw "Cannot find attestation address"
  end.

Definition getEscrowAddress (this : BlockscoutAPI) : result string :=
  match escrowAddress this with
  | Some a => if JS.truthy a then Ok a else Throw "Cannot find escrow address"
  | None => Throw "Cannot find escrow address"
  end.

(** [resolveTransferEventType]. *)
Definition resolveTransferEventType
  (userAddress eventToAddress eventFromAddress attestationsAddress escrowAddress
     : string)
  : result (EventTypes * string) :=
  if (eventToAddress =? userAddress) && (eventFromAddress =? FAUCET_ADDRESS)
  then Ok (FAUCET, FAUCET_ADDRESS)
  else if (eventToAddress =? attestationsAddress) && (eventFromAddress =? userAddress)
  then Ok (VERIFICATION_FEE, attestationsAddress)
  else if (eventToAddress =? userAddress)
          && (eventFromAddress =? VERIFICATION_REWARDS_ADDRESS)
  then Ok (VERIFICATION_REWARD, VERIFICATION_REWARDS_ADDRESS)
  else if (eventToAddress =? userAddress) && (eventFromAddress =? escrowAddress)
  then Ok (ESCROW_RECEIVED, eventFromAddress)
  else if (eventToAddress =? userAddress)
  then Ok (RECEIVED, eventFromAddress)
  else if (eventFromAddress =? userAddress) && (eventToAddress =? escrowAddress)
  then Ok (ESCROW_SENT, eventToAddress)
  else if (eventFromAddress =? userAddress)
  then Ok (SENT, eventToAddress)
  else Throw "No valid event type found ".

(** *** Pieces shared by the feeds *)

(** One turn of the loop that fills [txHashToEventTransactions];
    [get(tx.hash) || []] is the empty array only for a hash not seen yet. *)
Definition groupStep (txHashToEventTransactions : JS.Map (list BlockscoutTransaction))
  (tx : BlockscoutTransaction) : JS.Map (list BlockscoutTransaction) :=
  let currentTX := default [] (JS.Map_get (hash tx) txHashToEventTransactions) in
  JS.Map_set (hash tx) (currentTX ++ [tx])%list txHashToEventTransactions.

Definition groupByHash (rawTransactions : list BlockscoutTransaction)
  : JS.Map (list BlockscoutTransaction) :=
  fold_left groupStep rawTransactions [].

(** [map.forEach(callback)] for a callback that pushes at most one event
    onto [events] or throws; the events pushed, in order. *)
Fixpoint forEach_push {V E} (callback : V -> string -> result (option E))
  (m : JS.Map V) : result (list E) :=
  match m with
  | [] => Ok []
  | (k, v) :: m' =>
      let* pushed := callback v k in
      let* events := forEach_push callback m' in
      Ok (match pushed with
          | Some e => e :: events
          | None => events
          end)
  end.

(** The choice of [inEvent] and [outEvent] among the two rows of a group
    (the same statement in [getFeedEvents] and [getTokenTransactions]). *)
Definition exchangeLegs (userAddress : string) (t0 t1 : BlockscoutTransaction)
  : BlockscoutTransaction * BlockscoutTransaction :=
  if JS.toLowerCase (from t0) =? userAddress then (t0, t1) else (t1, t0).

(** [new BigNumber(s).toNumber()], read where [s] holds unix seconds or a
    block number: an integer below 2^53, which the rounding leaves as it
    is. *)
Definition numberOf (s : string) : JS.number :=
  BigNumber.toNumberExact (newBigNumber s).

(** [new BigNumber(s).dividedBy(WEI_PER_GOLD)]. *)
Definition inGold (x : BigNumber.t) : BigNumber.t :=
  BigNumber.dividedBy x (BigNumber.ofNumber WEI_PER_GOLD).

(** [new BigNumber(s).toNumber() * 1000]. *)
Definition milliseconds (s : string) : JS.number :=
  JS.number_mul (numberOf s) (JS.Num 1000).

(** [input ? formatCommentString(input) : ''] *)
Definition commentOf (input : string) : string :=
  if JS.truthy input then formatCommentString input else EmptyString.

(** *** getFeedEvents *)

(** The callback of [txHashToEventTransactions.forEach]. *)
Definition feedEventOfGroup (this : BlockscoutAPI) (userAddress : string)
  (transactions : list BlockscoutTransaction) (txhash : string)
  : result (option EventInterface) :=
  match transactions with
  | [t0; t1] =>
      let '(inEvent, outEvent) := exchangeLegs userAddress t0 t1 in
      let timestamp := numberOf (timeStamp inEvent) in
      let block := numberOf (blockNumber inEvent) in
      let* inSymbol := getTokenAtAddress this (contractAddress inEvent) in
      let inValue := BigNumber.toNumber (inGold (newBigNumber (value inEvent))) in
      let* outSymbol := getTokenAtAddress this (contractAddress outEvent) in
      let outValue := BigNumber.toNumber (inGold (newBigNumber (value outEvent))) in
      Ok (Some (Exchange
        {| ExchangeEvent.type := EXCHANGE;
           ExchangeEvent.timestamp := timestamp;
           ExchangeEvent.block := block;
           ExchangeEvent.inSymbol := inSymbol;
           ExchangeEvent.inValue := inValue;
           ExchangeEvent.outSymbol := outSymbol;
           ExchangeEvent.outValue := outValue;
           ExchangeEvent.hash := txhash |}))
  | event :: _ =>
      let comment := commentOf (input event) in
      let eventToAddress := JS.toLowerCase (to event) in
      let eventFromAddress := JS.toLowerCase (from event) in
      let* attestations := getAttestationAddress this in
      let* escrow := getEscrowAddress this in
      let* (type, address) :=
        resolveTransferEventType userAddress eventToAddress eventFromAddress
          attestations escrow in
      let timestamp := numberOf (timeStamp event) in
      let block := numberOf (blockNumber event) in
      let value := BigNumber.toNumber (inGold (newBigNumber (value event))) in
      let* token := getTokenAtAddress this (contractAddress event) in
      Ok (Some (Transfer
        {| TransferEvent.type := type;
           TransferEvent.timestamp := timestamp;
           TransferEvent.block := block;
           TransferEvent.value := value;
           TransferEvent.address := address;
           TransferEvent.comment := comment;
           TransferEvent.symbol := if JS.truthy token then token else "unknown";
           TransferEvent.hash := txhash |}))
  | [] => Throw "TypeError: Cannot read property 'input' of undefined"
  end.

(** The events array before the final sort. *)
Definition feedEventsPushed (this : BlockscoutAPI) (userAddress : string)
  (rawTransactions : list BlockscoutTransaction) : result (list EventInterface) :=
  forEach_push (feedEventOfGroup this userAddress) (groupByHash rawTransactions).

(** [(a, b) => b.timestamp - a.timestamp] *)
Definition byTimestampDesc {E} (timestamp : E -> JS.number) (a b : E) : JS.number :=
  JS.number_sub (timestamp b) (timestamp a).

(** [getFeedEvents(args)], given the rows that [getRawTokenTransactions]
    answered; the result and the state of the instance afterwards. *)
Definition getFeedEvents (this : BlockscoutAPI) (address : string)
  (rawTransactions : list BlockscoutTransaction)
  : result (list EventInterface) * BlockscoutAPI :=
  let userAddress := JS.toLowerCase address in
  let this' := fst (ensureTokenAddresses this) in
  (let* events := feedEventsPushed this' userAddress rawTransactions in
   Ok (JS.sort (byTimestampDesc event_timestamp) events),
   this').

(** *** getFeedRewards *)

(** The [for (const t of rawTransactions)] loop; the rewards pushed. *)
Fixpoint rewardsPushed (this : BlockscoutAPI)
  (rawTransactions : list BlockscoutTransaction) : result (list TransferEvent.t) :=
  match rawTransactions with
  | [] => Ok []
  | t :: rest =>
      if negb (JS.toLowerCase (from t) =? VERIFICATION_REWARDS_ADDRESS)
      then rewardsPushed this rest
      else
        let timestamp := numberOf (timeStamp t) in
        let block := numberOf (blockNumber t) in
        let value := BigNumber.toNumber (inGold (newBigNumber (value t))) in
        let comment := commentOf (input t) in
        let* symbol := getTokenAtAddress this (contractAddress t) in
        let* rewards := rewardsPushed this rest in
        Ok ({| TransferEvent.type := VERIFICATION_REWARD;
               TransferEvent.timestamp := timestamp;
               TransferEvent.block := block;
               TransferEvent.value := value;
               TransferEvent.address := VERIFICATION_REWARDS_ADDRESS;
               TransferEvent.comment := comment;
               TransferEvent.symbol := symbol;
               TransferEvent.hash := hash t |} :: rewards)
  end.

Definition getFeedRewards (this : BlockscoutAPI)
  (rawTransactions : list BlockscoutTransaction)
  : result (list TransferEvent.t) * BlockscoutAPI :=
  let this' := fst (ensureTokenAddresses this) in
  (let* rewards := rewardsPushed this' rawTransactions in
   Ok (JS.sort (byTimestampDesc TransferEvent.timestamp) rewards),
   this').

(** *** getTokenTransactions *)

(** [tx.contractAddress.toLowerCase() === this.stableTokenAddress &&
    tx.value !== '0'] *)
Definition isStableTokenTx (this : BlockscoutAPI) (tx : BlockscoutTransaction)
  : bool :=
  match stableTokenAddress this with
  | Some stable => JS.toLowerCase (contractAddress tx) =? stable
  | None => false
  end
  && negb (value tx =? "0").

(** [(a, b) => new BigNumber(b.value).minus(new BigNumber(a.value)).toNumber()];
    the sort looks only at the sign, which the rounding keeps. *)
Definition byValueDesc (a b : BlockscoutTransaction) : JS.number :=
  BigNumber.toNumberExact
    (BigNumber.minus (newBigNumber (value b)) (newBigNumber (value a))).

(** The filter and the sort that open the else branch. *)
Definition stableTokenTxsOf (this : BlockscoutAPI)
  (transactions : list BlockscoutTransaction) : list BlockscoutTransaction :=
  JS.sort byValueDesc (List.filter (isStableTokenTx this) transactions).

(** From [if (stableTokenTxs.length < 1)] to the end of the [switch]: the
    row kept as [event], or [None] where the callback returns. *)
Definition pickTransfer (stableTokenTxs : list BlockscoutTransaction)
  : option BlockscoutTransaction :=
  match stableTokenTxs with
  | [] => None
  | first :: _ =>
      let gasValue :=
        BigNumber.multipliedBy (newBigNumber (gasUsed first))
          (newBigNumber (gasPrice first)) in
      match stableTokenTxs with
      | [tx0] => Some tx0
      | [tx0; tx1; tx2] =>
          let tx0Value := newBigNumber (value tx0) in
          let tx1Value := newBigNumber (value tx1) in
          let tx2Value := newBigNumber (value tx2) in
          if BigNumber.isEqualTo (BigNumber.plus tx0Value tx1Value) gasValue
          then Some tx2
          else if BigNumber.isEqualTo (BigNumber.plus tx0Value tx2Value) gasValue
          then Some tx1
          else Some tx0
      | _ => None
      end
  end.

(** [new BigNumber(v).multipliedBy(negate ? -1 : 1).dividedBy(WEI_PER_GOLD)
    .toString()] *)
Definition signedGold (v : string) (negate : bool) : string :=
  BigNumber_toString
    (inGold (BigNumber.multipliedBy (newBigNumber v)
               (BigNumber.ofNumber (JS.Num (if negate then -1 else 1)%Q)))).

(** The event pushed for the row kept as [event]. *)
Definition tokenTransferEvent (this : BlockscoutAPI) (userAddress : string)
  (event : BlockscoutTransaction) (txhash : string) : result TokenEvent :=
  let comment := commentOf (input event) in
  let eventToAddress := JS.toLowerCase (to event) in
  let eventFromAddress := JS.toLowerCase (from event) in
  let* attestations := getAttestationAddress this in
  let* escrow := getEscrowAddress this in
  let* (type, address) :=
    resolveTransferEventType userAddress eventToAddress eventFromAddress
      attestations escrow in
  let timestamp := milliseconds (timeStamp event) in
  Ok (TTransfer
    {| TokenTransfer.type := type;
       TokenTransfer.timestamp := timestamp;
       TokenTransfer.block := blockNumber event;
       TokenTransfer.amount :=
         {| MoneyAmount.value :=
              signedGold (value event) (eventFromAddress =? userAddress);
            MoneyAmount.currencyCode := tokenSymbol event;
            MoneyAmount.timestamp := timestamp |};
       TokenTransfer.address := address;
       TokenTransfer.comment := comment;
       TokenTransfer.hash := txhash |}).

(** The callback of [txHashToEventTransactions.forEach].  The two rows of
    a group are distinct objects, so [tokenEvent === inEvent] holds exactly
    when [find] stopped at index 0. *)
Definition tokenEventOfGroup (this : BlockscoutAPI) (userAddress token : string)
  (transactions : list BlockscoutTransaction) (txhash : string)
  : result (option TokenEvent) :=
  match transactions with
  | [t0; t1] =>
      let '(inEvent, outEvent) := exchangeLegs userAddress t0 t1 in
      match JS.find_from (fun event => tokenSymbol event =? token) 0
              [inEvent; outEvent] with
      | Some (i, tokenEvent) =>
          let timestamp := milliseconds (timeStamp inEvent) in
          Ok (Some (TExchange
            {| TokenExchange.type := EXCHANGE;
               TokenExchange.timestamp := timestamp;
               TokenExchange.block := blockNumber inEvent;
               TokenExchange.amount :=
                 {| MoneyAmount.value := signedGold (value tokenEvent) (Nat.eqb i 0);
                    MoneyAmount.currencyCode := tokenSymbol tokenEvent;
                    MoneyAmount.timestamp := timestamp |};
               TokenExchange.makerAmount :=
                 {| MoneyAmount.value :=
                      BigNumber_toString (inGold (newBigNumber (value inEvent)));
                    MoneyAmount.currencyCode := tokenSymbol inEvent;
                    MoneyAmount.timestamp := timestamp |};
               TokenExchange.takerAmount :=
                 {| MoneyAmount.value :=
                      BigNumber_toString (inGold (newBigNumber (value outEvent)));
                    MoneyAmount.currencyCode := tokenSymbol outEvent;
                    MoneyAmount.timestamp := timestamp |};
               TokenExchange.hash := txhash |}))
      | None => Ok None
      end
  | _ =>
      match pickTransfer (stableTokenTxsOf this transactions) with
      | Some event =>
          let* e := tokenTransferEvent this userAddress event txhash in
          Ok (Some e)
      | None => Ok None
      end
  end.

(** The events array before the final filter and sort. *)
Definition tokenEventsPushed (this : BlockscoutAPI) (userAddress token : string)
  (rawTransactions : list BlockscoutTransaction) : result (list TokenEvent) :=
  forEach_push (tokenEventOfGroup this userAddress token)
    (groupByHash rawTransactions).

(** [getTokenTransactions(args)], given the rows that
    [getRawTokenTransactions] answered. *)
Definition getTokenTransactions (this : BlockscoutAPI) (address token : string)
  (rawTransactions : list BlockscoutTransaction)
  : result (list TokenEvent) * BlockscoutAPI :=
  let userAddress := JS.toLowerCase address in
  let this' := fst (ensureTokenAddresses this) in
  (let* events := tokenEventsPushed this' userAddress token rawTransactions in
   Ok (JS.sort (byTimestampDesc token_event_timestamp)
         (List.filter
            (fun event => MoneyAmount.currencyCode (token_event_amount event) =? token)
            events)),
   this').

End Classifier.

(** ** The rule table of the specification *)

Section RuleTable.
Context {imports : Imports}.

(** The seven rules of section 4.4 of the specification, in its words: the
    guard of each rule with the event type and the counterparty it names
    ("sender" is [fromAddr], "receiver" is [toAddr]). *)
Definition spec_rules (viewer toAddr fromAddr attestationAddr escrowAddr : string)
  : list (bool * (EventTypes * string)) :=
  [ ((toAddr =? viewer) && (fromAddr =? FAUCET_ADDRESS),
     (FAUCET, FAUCET_ADDRESS));
    ((toAddr =? attestationAddr) && (fromAddr =? viewer),
     (VERIFICATION_FEE, attestationAddr));
    ((toAddr =? viewer) && (fromAddr =? VERIFICATION_REWARDS_ADDRESS),
     (VERIFICATION_REWARD, VERIFICATION_REWARDS_ADDRESS));
    ((toAddr =? viewer) && (fromAddr =? escrowAddr),
     (ESCROW_RECEIVED, fromAddr));
    ((toAddr =? viewer),
     (RECEIVED, fromAddr));
    ((fromAddr =? viewer) && (toAddr =? escrowAddr),
     (ESCROW_SENT, escrowAddr));
    ((fromAddr =? viewer),
     (SENT, toAddr)) ].

(** The first rule that matches wins. *)
Fixpoint spec_first_match {A} (rules : list (bool * A)) : option A :=
  match rules with
  | [] => None
  | (guard, outcome) :: rules' =>
      if guard then Some outcome else spec_first_match rules'
  end.

End RuleTable.

(** ** Notions used in the statements *)

(** Every field of the registry holds a value (a non-empty address). *)
Definition populated (this : BlockscoutAPI) : Prop :=
  is_Some (tokenAddressMapping this)
  /\ (exists a, attestationsAddress this = Some a /\ a <> EmptyString)
  /\ (exists a, escrowAddress this = Some a /\ a <> EmptyString)
  /\ (exists a, goldTokenAddress this = Some a /\ a <> EmptyString)
  /\ (exists a, stableTokenAddress this = Some a /\ a <> EmptyString).

(** The row with its three address fields in lower case. *)
Definition lowerAddresses (tx : BlockscoutTransaction) : BlockscoutTransaction :=
  {| value := value tx;
     txreceipt_status := txreceipt_status tx;
     transactionIndex := transactionIndex tx;
     tokenSymbol := tokenSymbol tx;
     tokenName := tokenName tx;
     tokenDecimal := tokenDecimal tx;
     to := JS.toLowerCase (to tx);
     timeStamp := timeStamp tx;
     nonce := nonce tx;
     isError := isError tx;
     input := input tx;
     hash := hash tx;
     gasUsed := gasUsed tx;
     gasPrice := gasPrice tx;
     gas := gas tx;
     from := JS.toLowerCase (from tx);
     cumulativeGasUsed := cumulativeGasUsed tx;
     contractAddress := JS.toLowerCase (contractAddress tx);
     confirmations := confirmations tx;
     blockNumber := blockNumber tx;
     blockHash := blockHash tx |}.

(** Two rows that differ at most in the letter case of [from], [to] and
    [contractAddress]. *)
Definition sameUpToCase (tx1 tx2 : BlockscoutTransaction) : Prop :=
  lowerAddresses tx1 = lowerAddresses tx2.

(** [a <= b] on numbers; false when one of them is NaN. *)
Definition number_le (a b : JS.number) : Prop :=
  match a, b with
  | JS.Num x, JS.Num y => (x <= y)%Q
  | _, _ => False
  end.

(** The number is [t]. *)
Definition number_is (t : Q) (n : JS.number) : bool :=
  match n with
  | JS.Num x => Qeq_bool x t
  | JS.NaN => false
  end.

(** [out] is in descending order of timestamp. *)
Definition descending {E} (timestamp : E -> JS.number) (out : list E) : Prop :=
  StronglySorted (fun a b => number_le (timestamp b) (timestamp a)) out.

(** The events of each timestamp come in [out] in the order they have in
    [pushed]. *)
Definition keepsOrderOfTies {E} (timestamp : E -> JS.number) (pushed out : list E)
  : Prop :=
  forall t : Q,
    List.filter (fun e => number_is t (timestamp e)) out
    = List.filter (fun e => number_is t (timestamp e)) pushed.

(** [n] is the integer [z] divided by 10^18 as a double: the double nearest
    to the quotient, away from it by at most 2^-53 of it. *)
Definition isInGold (z : Z) (n : JS.number) : Prop :=
  match n with
  | JS.Num x =>
      x = JS.toDouble (inject_Z z / inject_Z (10 ^ 18))
      /\ (Qabs (x * inject_Z (10 ^ 18) - inject_Z z) * inject_Z (2 ^ 53)
          <= Qabs (inject_Z z))%Q
  | JS.NaN => False
  end.

(** The hash carried by an event. *)
Definition event_hash (e : EventInterface) : string :=
  match e with
  | Exchange x => ExchangeEvent.hash x
  | Transfer x => TransferEvent.hash x
  end.

Definition token_event_hash (e : TokenEvent) : string :=
  match e with
  | TExchange x => TokenExchange.hash x
  | TTransfer x => TokenTransfer.hash x
  end.

(** The rows of hash [h], in the order of the input. *)
Definition rowsOf (h : string) (rawTransactions : list BlockscoutTransaction)
  : list BlockscoutTransaction :=
  List.filter (fun tx => hash tx =? h) rawTransactions.

(** The hashes of a list, each once, in the order of first appearance. *)
Fixpoint firstSeen (hashes : list string) : list string :=
  match hashes with
  | [] => []
  | h :: rest => h :: List.filter (fun k => negb (k =? h)) (firstSeen rest)
  end.

(** The viewer is the receiver or the sender of the row. *)
Definition involves (userAddress : string) (row : BlockscoutTransaction) : Prop :=
  JS.toLowerCase (to row) = userAddress \/ JS.toLowerCase (from row) = userAddress.

(** The event types of money coming in, and of money going out. *)
Definition incoming (type : EventTypes) : bool :=
  match type with
  | FAUCET | VERIFICATION_REWARD | ESCROW_RECEIVED | RECEIVED => true
  | _ => false
  end.

Definition outgoing (type : EventTypes) : bool :=
  match type with
  | VERIFICATION_FEE | ESCROW_SENT | SENT => true
  | _ => false
  end.

(** ** A concrete instance of the imports *)

Module Demo.

Definition digit_of (c : ascii) : option Z :=
  let n := N_of_ascii c in
  if ((48 <=? n) && (n <=? 57))%N then Some (Z.of_N (n - 48)) else None.

Fixpoint digits (s : string) (acc : Z) : option Z :=
  match s with
  | EmptyString => Some acc
  | String c s' =>
      match digit_of c with
      | Some d => digits s' (10 * acc + d)
      | None => None
      end
  end.

(** [new BigNumber(s)] for a string of decimal digits with an optional
    minus sign, the form in which blockscout sends quantities; any other
    string is read as NaN here. *)
Definition readDecimal (s : string) : BigNumber.t :=
  match s with
  | EmptyString => BigNumber.BNaN
  | String "-" EmptyString => BigNumber.BNaN
  | String "-" s' =>
      match digits s' 0 with
      | Some z => BigNumber.BN (inject_Z (- z))
      | None => BigNumber.BNaN
      end
  | _ =>
      match digits s 0 with
      | Some z => BigNumber.BN (inject_Z z)
      | None => BigNumber.BNaN
      end
  end.

Definition string_of_nonneg (z : Z) : string :=
  NilZero.string_of_uint (N.to_uint (Z.to_N z)).

Fixpoint fraction (places : nat) (r d : Z) : string :=
  match places with
  | O => EmptyString
  | S places' =>
      if (r =? 0)%Z then EmptyString
      else string_of_nonneg (10 * r / d) ++ fraction places' (10 * r mod d) d
  end.

(** [toString()] in fixed notation, up to 20 decimal places. *)
Definition printDecimal (x : BigNumber.t) : string :=
  match x with
  | BigNumber.BNaN => "NaN"
  | BigNumber.BN q =>
      let n := Z.abs (Qnum q) in
      let d := Z.pos (Qden q) in
      let f := fraction 20 (n mod d) d in
      (if (Qnum q <? 0)%Z then "-" else EmptyString)
      ++ string_of_nonneg (n / d)
      ++ (if f =? EmptyString then EmptyString else "." ++ f)
  end.

Definition goldToken : string := "0x601d".
Definition stableToken : string := "0x57ab1e".
Definition attestations : string := "0xa77e57".
Definition escrow : string := "0xe5c".

Definition addresses : ContractAddresses.t :=
  {| ContractAddresses.tokenAddressMapping :=
       <[goldToken := "Celo Gold"]> (<[stableToken := "Celo Dollar"]> ∅);
     ContractAddresses.attestationsAddress := attestations;
     ContractAddresses.escrowAddress := escrow;
     ContractAddresses.goldTokenAddress := goldToken;
     ContractAddresses.stableTokenAddress := stableToken |}.

Definition imports : Imports :=
  {| FAUCET_ADDRESS := "0xfa0ce7";
     VERIFICATION_REWARDS_ADDRESS := "0xb0a7";
     formatCommentString := fun input => input;
     getContractAddresses := addresses;
     newBigNumber := readDecimal;
     BigNumber_toString := printDecimal |}.

(** A fresh instance, and one whose addresses are resolved. *)
Definition fresh : BlockscoutAPI :=
  {| tokenAddressMapping := None;
     attestationsAddress := None;
     escrowAddress := None;
     goldTokenAddress := None;
     stableTokenAddress := None |}.

Definition ready : BlockscoutAPI := fst (@ensureTokenAddresses imports fresh).

(** A row with the fields the classifier reads; gas 21000 at price 1. *)
Definition row (hash from to contractAddress tokenSymbol value timeStamp : string)
  : BlockscoutTransaction :=
  {| value := value;
     txreceipt_status := "1";
     transactionIndex := "0";
     tokenSymbol := tokenSymbol;
     tokenName := tokenSymbol;
     tokenDecimal := "18";
     to := to;
     timeStamp := timeStamp;
     nonce := "0";
     isError := "0";
     input := EmptyString;
     hash := hash;
     gasUsed := "21000";
     gasPrice := "1";
     gas := "21000";
     from := from;
     cumulativeGasUsed := "21000";
     contractAddress := contractAddress;
     confirmations := "1";
     blockNumber := "42";
     blockHash := "0xb10c" |}.

End Demo.

(** Rows for the examples: the viewer is [0xaaa]. *)
Module Sample.

Definition viewer : string := "0xAAA".

(** Two rows of one hash, neither sent by the viewer. *)
Definition legA : BlockscoutTransaction :=
  Demo.row "0x2" "0xBBB" "0xCCC" Demo.goldToken "cGLD" "2000000000000000000" "1600000100".
Definition legB : BlockscoutTransaction :=
  Demo.row "0x2" "0xCCC" "0xDDD" Demo.stableToken "cUSD" "3000000000000000000" "1600000200".

(** The scenario of the specification: the viewer sends one unit. *)
Definition sent : BlockscoutTransaction :=
  Demo.row "0x1" "0xAAA" "0xBBB" Demo.stableToken "cUSD" "1000000000000000000" "1600000000".

(** Three transfers, the first and the last in the same second. *)
Definition received : BlockscoutTransaction :=
  Demo.row "0x3" "0xBBB" "0xAAA" Demo.stableToken "cUSD" "5000000000000000000" "1600000500".
Definition sentAgain : BlockscoutTransaction :=
  Demo.row "0x4" "0xAAA" "0xCCC" Demo.stableToken "cUSD" "7000000000000000000" "1600000000".
Definition ties : list BlockscoutTransaction := [sent; received; sentAgain].

(** Four rows of one hash: a transfer of dollars by the viewer and three
    movements of gold. *)
Definition mixedFour : list BlockscoutTransaction :=
  [ Demo.row "0x9" "0xAAA" "0xBBB" Demo.stableToken "cUSD" "1000000000000000000" "1600000900";
    Demo.row "0x9" "0xBBB" "0xCCC" Demo.goldToken "cGLD" "10" "1600000900";
    Demo.row "0x9" "0xCCC" "0xDDD" Demo.goldToken "cGLD" "20" "1600000900";
    Demo.row "0x9" "0xDDD" "0xEEE" Demo.goldToken "cGLD" "30" "1600000900" ].

(** Four rows of one hash, all of them transfers of dollars. *)
Definition stableFour : list BlockscoutTransaction :=
  [ Demo.row "0x9" "0xAAA" "0xBBB" Demo.stableToken "cUSD" "1000000000000000000" "1600000900";
    Demo.row "0x9" "0xAAA" "0xCCC" Demo.stableToken "cUSD" "10" "1600000900";
    Demo.row "0x9" "0xAAA" "0xDDD" Demo.stableToken "cUSD" "20" "1600000900";
    Demo.row "0x9" "0xAAA" "0xEEE" Demo.stableToken "cUSD" "30" "1600000900" ].

(** A lone transfer of gold received by the viewer. *)
Definition goldOnly : BlockscoutTransaction :=
  Demo.row "0x5" "0xBBB" "0xAAA" Demo.goldToken "cGLD" "4000000000000000000" "1600000300".

(** A transfer whose fee was paid in dollars: the two fee rows add up to
    gasUsed x gasPrice = 21000, the third row is the transfer. *)
Definition feeTip : BlockscoutTransaction :=
  Demo.row "0x7" "0xAAA" "0xF00" Demo.stableToken "cUSD" "15000" "1600000700".
Definition feeBase : BlockscoutTransaction :=
  Demo.row "0x7" "0xAAA" "0xF01" Demo.stableToken "cUSD" "6000" "1600000700".
Definition feePaidTransfer : BlockscoutTransaction :=
  Demo.row "0x7" "0xAAA" "0xBBB" Demo.stableToken "cUSD" "2000000000000000000" "1600000700".
Definition feePaid : list BlockscoutTransaction := [feeTip; feeBase; feePaidTransfer].

(** [sent] with the letters of its addresses in the other case. *)
Definition sentOtherCase : BlockscoutTransaction :=
  Demo.row "0x1" "0xaaa" "0xbbb" "0x57AB1E" "cUSD" "1000000000000000000" "1600000000".

(** An instance whose registry holds the stable-token address in mixed
    case. *)
Definition mixedCaseRegistry : BlockscoutAPI :=
  {| tokenAddressMapping := tokenAddressMapping Demo.ready;
     attestationsAddress := Some Demo.attestations;
     escrowAddress := Some Demo.escrow;
     goldTokenAddress := Some Demo.goldToken;
     stableTokenAddress := Some "0x57AB1E" |}.

(** A resolution answer without an escrow address. *)
Definition noEscrow : Imports :=
  {| FAUCET_ADDRESS := "0xfa0ce7";
     VERIFICATION_REWARDS_ADDRESS := "0xb0a7";
     formatCommentString := fun input => input;
     getContractAddresses :=
       {| ContractAddresses.tokenAddressMapping :=
            ContractAddresses.tokenAddressMapping Demo.addresses;
          ContractAddresses.attestationsAddress := Demo.attestations;
          ContractAddresses.escrowAddress := EmptyString;
          ContractAddresses.goldTokenAddress := Demo.goldToken;
          ContractAddresses.stableTokenAddress := Demo.stableToken |};
     newBigNumber := Demo.readDecimal;
     BigNumber_toString := Demo.printDecimal |}.

(** A reward paid to the viewer, and a row of a token the registry does
    not know. *)
Definition reward : BlockscoutTransaction :=
  Demo.row "0x8" "0xB0A7" "0xAAA" Demo.stableToken "cUSD" "1500000000000000000" "1600000800".
Definition unknownToken : BlockscoutTransaction :=
  Demo.row "0x6" "0xBBB" "0xAAA" "0xdead" "XYZ" "1" "1600000600".

(** Two rows of one hash, the first sent by the viewer, with an amount
    of wei that is no double once divided by 10^18. *)
Definition soldWei : BlockscoutTransaction :=
  Demo.row "0xa" "0xAAA" "0xE" Demo.stableToken "cUSD" "1234567890123456789" "1600001000".
Definition boughtWei : BlockscoutTransaction :=
  Demo.row "0xa" "0xE" "0xAAA" Demo.goldToken "cGLD" "3000000000000000000" "1600001000".

End Sample.

(** * Proofs *)

(** ** Strings *)

Lemma eqb_true (a b : string) : (a =? b) = true <-> a = b.
Proof. apply String.eqb_eq. Qed.

Lemma eqb_false (a b : string) : (a =? b) = false <-> a <> b.
Proof. apply String.eqb_neq. Qed.

Lemma truthy_spec (s : string) : JS.truthy s = true <-> s <> EmptyString.
Proof.
  unfold JS.truthy. rewrite negb_true_iff. apply eqb_false.
Qed.

Ltac string_cases :=
  repeat match goal with
    | |- context [String.eqb ?a ?b] =>
        let E := fresh "E" in
        destruct (String.eqb a b) eqn:E;
        [apply eqb_true in E | apply eqb_false in E]
    end.

(** ** The type resolver *)

Section ResolverProofs.
Context {imports : Imports}.

(** C1: [resolveTransferEventType] returns the outcome of the first rule
    of the seven-rule table of section 4.4 that matches, and throws exactly
    when no rule matches, which is when the viewing address is neither the
    receiver nor the sender. *)
Theorem resolveTransferEventType_first_match
  (userAddress eventToAddress eventFromAddress attestationsAddress escrowAddress
     : string) :
  let rules :=
    spec_rules userAddress eventToAddress eventFromAddress attestationsAddress
      escrowAddress in
  let answer :=
    resolveTransferEventType userAddress eventToAddress eventFromAddress
      attestationsAddress escrowAddress in
  answer = match spec_first_match rules with
           | Some outcome => Ok outcome
           | None => Throw "No valid event type found "
           end
  /\ ((exists msg, answer = Throw msg) <-> Forall (fun rule => fst rule = false) rules)
  /\ (Forall (fun rule => fst rule = false) rules
      <-> eventToAddress <> userAddress /\ eventFromAddress <> userAddress).
Proof.
  cbv zeta. unfold resolveTransferEventType, spec_rules. split; [|split].
  - cbn [spec_first_match]. string_cases; cbn; congruence.
  - split.
    + intros [msg H]. revert H.
      string_cases; cbn; try discriminate; intros _;
        repeat constructor; cbn; string_cases; congruence.
    + intros H. repeat match goal with
        | H : Forall _ (_ :: _) |- _ => apply Forall_cons_1 in H; destruct H as [? H]
        end.
      cbn [fst] in *.
      revert H0 H1 H2 H3 H4 H5 H6.
      string_cases; cbn; try discriminate; eauto.
  - split.
    + intros H. repeat match goal with
        | H : Forall _ (_ :: _) |- _ => apply Forall_cons_1 in H; destruct H as [? H]
        end.
      cbn [fst] in *. split; apply eqb_false; assumption.
    + intros [Ht Hf]. apply eqb_false in Ht, Hf.
      repeat constructor; cbn [fst]; rewrite ?Ht, ?Hf, ?andb_false_r; reflexivity.
Qed.

End ResolverProofs.

(** ** Exchange legs *)

Section ExchangeLegProofs.
Context {imports : Imports}.

(** C2 (as amended): in a group of two rows the first row is the in leg
    when its lower-cased [from] is the viewing address, whether or not the
    second row's is too; otherwise the second row is the in leg, both when
    only its [from] is the viewing address and when neither row's is.  The
    exchange events of both feeds take their timestamp from that row. *)
Theorem exchangeLegs_cases (this : BlockscoutAPI) (userAddress token txhash : string)
  (t0 t1 : BlockscoutTransaction) :
  let firstIsFromViewer := JS.toLowerCase (from t0) =? userAddress in
  let secondIsFromViewer := JS.toLowerCase (from t1) =? userAddress in
  let legs := exchangeLegs userAddress t0 t1 in
  legs = match firstIsFromViewer, secondIsFromViewer with
         | true, false => (t0, t1)
         | false, true => (t1, t0)
         | true, true => (t0, t1)
         | false, false => (t1, t0)
         end
  /\ match feedEventOfGroup this userAddress [t0; t1] txhash with
     | Ok (Some e) => event_timestamp e = numberOf (timeStamp (fst legs))
     | Ok None => False
     | Throw _ => True
     end
  /\ match tokenEventOfGroup this userAddress token [t0; t1] txhash with
     | Ok (Some e) => token_event_block e = blockNumber (fst legs)
     | Ok None => tokenSymbol t0 <> token /\ tokenSymbol t1 <> token
     | Throw _ => False
     end.
Proof.
  cbv zeta. unfold exchangeLegs. split; [|split].
  - string_cases; reflexivity.
  - unfold feedEventOfGroup, exchangeLegs.
    destruct (JS.toLowerCase (from t0) =? userAddress); cbn;
      repeat match goal with
        | |- context [getTokenAtAddress ?a ?b] => destruct (getTokenAtAddress a b); cbn
        end; trivial.
  - unfold tokenEventOfGroup, exchangeLegs.
    destruct (JS.toLowerCase (from t0) =? userAddress); cbn;
      string_cases; cbn; auto.
Qed.

End ExchangeLegProofs.

(** C2 (as stated) fails: neither row of the group is sent by the viewer,
    and the in leg is the second row, not the first; the exchange event
    carries the second row's timestamp. *)
Lemma exchangeLegs_neither_is_second :
  JS.toLowerCase (from Sample.legA) <> JS.toLowerCase Sample.viewer
  /\ JS.toLowerCase (from Sample.legB) <> JS.toLowerCase Sample.viewer
  /\ fst (exchangeLegs (JS.toLowerCase Sample.viewer) Sample.legA Sample.legB)
     = Sample.legB
  /\ Sample.legB <> Sample.legA
  /\ exists e,
      fst (@getFeedEvents Demo.imports Demo.fresh Sample.viewer
             [Sample.legA; Sample.legB]) = Ok [Exchange e]
      /\ ExchangeEvent.timestamp e = JS.Num (inject_Z 1600000200)
      /\ ExchangeEvent.inSymbol e = "Celo Dollar".
Proof.
  split; [vm_compute; discriminate|].
  split; [vm_compute; discriminate|].
  split; [reflexivity|].
  split; [vm_compute; discriminate|].
  eexists. split; [vm_compute; reflexivity|].
  split; reflexivity.
Qed.

(** ** The address registry *)

Section RegistryProofs.
Context {imports : Imports}.

Lemma truthy_opt_spec (o : option string) :
  JS.truthy_opt o = true <-> exists a, o = Some a /\ a <> EmptyString.
Proof.
  destruct o as [a|]; cbn.
  - rewrite truthy_spec. split; [eauto|]. intros (b & [= <-] & H). exact H.
  - split; [discriminate|]. intros (b & [=] & _).
Qed.

(** C6: on an instance whose five registry fields are all set,
    [ensureTokenAddresses] makes no resolution request and leaves the
    instance as it is. *)
Theorem ensureTokenAddresses_populated (this : BlockscoutAPI) :
  populated this ->
  ensureTokenAddresses this = (this, []).
Proof.
  intros (Hm & Ha & He & Hg & Hs). unfold ensureTokenAddresses.
  apply truthy_opt_spec in Ha, He, Hg, Hs.
  rewrite Ha, He, Hg, Hs, bool_decide_eq_true_2 by exact Hm. reflexivity.
Qed.

End RegistryProofs.

Lemma ensureTokenAddresses_populated_witness :
  populated Demo.ready
  /\ @ensureTokenAddresses Demo.imports Demo.ready = (Demo.ready, []).
Proof.
  assert (H : populated Demo.ready).
  { repeat split; [eexists; reflexivity | eexists; split; [reflexivity|discriminate] ..]. }
  split; [exact H|].
  apply (@ensureTokenAddresses_populated Demo.imports Demo.ready H).
Defined.

(** ** Sorting *)

Section SortProofs.
Context {A : Type} (comparefn : A -> A -> JS.number).

Lemma sort_insert_Permutation (x : A) (l : list A) :
  Permutation (JS.sort_insert comparefn x l) (x :: l).
Proof.
  induction l as [|y l IH]; cbn; [reflexivity|].
  destruct (JS.number_pos (comparefn x y)); [|reflexivity].
  rewrite IH. apply perm_swap.
Qed.

Lemma sort_Permutation (l : list A) : Permutation (JS.sort comparefn l) l.
Proof.
  induction l as [|x l IH]; cbn; [reflexivity|].
  rewrite sort_insert_Permutation. now constructor.
Qed.

Lemma sort_In (l : list A) (x : A) : In x (JS.sort comparefn l) <-> In x l.
Proof.
  split; apply Permutation_in; [|symmetry]; apply sort_Permutation.
Qed.

(** Insertion does not move [x] past an element of its own class [p]. *)
Lemma filter_sort_insert (p : A -> bool) (x : A) (l : list A) :
  (forall y, p x = true -> p y = true -> JS.number_pos (comparefn x y) = false) ->
  List.filter p (JS.sort_insert comparefn x l) = List.filter p (x :: l).
Proof.
  intros Hp. induction l as [|y l IH]; [reflexivity|].
  cbn [JS.sort_insert]. destruct (JS.number_pos (comparefn x y)) eqn:Hxy; [|reflexivity].
  cbn [List.filter]. rewrite IH. cbn [List.filter].
  destruct (p x) eqn:Hx, (p y) eqn:Hy; try reflexivity.
  rewrite (Hp y) in Hxy by (assumption || reflexivity). discriminate.
Qed.

End SortProofs.

Lemma number_pos_sub (x y : Q) :
  JS.number_pos (JS.number_sub (JS.Num y) (JS.Num x)) = true <-> (x < y)%Q.
Proof.
  cbn. rewrite Z.ltb_lt, (Qlt_minus_iff x y).
  unfold Qlt. cbn. rewrite Z.mul_1_r. reflexivity.
Qed.

Lemma number_is_eq (t : Q) (n : JS.number) :
  number_is t n = true <-> exists q, n = JS.Num q /\ (q == t)%Q.
Proof.
  destruct n as [q|]; cbn.
  - rewrite Qeq_bool_iff. split; [eauto|]. intros (q' & [= <-] & H). exact H.
  - split; [discriminate|]. intros (q & [=] & _).
Qed.

Section TimestampSort.
Context {E : Type} (timestamp : E -> JS.number).

Lemma byTimestampDesc_pos (a b : E) (x y : Q) :
  timestamp a = JS.Num x -> timestamp b = JS.Num y ->
  JS.number_pos (byTimestampDesc timestamp a b) = true <-> (x < y)%Q.
Proof.
  intros Ha Hb. unfold byTimestampDesc. rewrite Ha, Hb. apply number_pos_sub.
Qed.

Lemma sort_insert_descending (x : E) (l : list E) :
  Forall (fun e => timestamp e <> JS.NaN) (x :: l) ->
  descending timestamp l ->
  descending timestamp (JS.sort_insert (byTimestampDesc timestamp) x l).
Proof.
  unfold descending. intros Hnum Hl.
  apply Forall_cons_1 in Hnum as [Hx Hnum].
  destruct (timestamp x) as [qx|] eqn:Ex; [clear Hx|congruence].
  induction Hl as [|y l Hl IH Hy]; cbn; [repeat constructor|].
  apply Forall_cons_1 in Hnum as [Hny Hnum].
  destruct (timestamp y) as [qy|] eqn:Ey; [clear Hny|congruence].
  destruct (JS.number_pos (byTimestampDesc timestamp x y)) eqn:Hxy.
  - apply (byTimestampDesc_pos x y qx qy Ex Ey) in Hxy.
    constructor; [auto|].
    eapply Permutation_Forall; [symmetry; apply sort_insert_Permutation|].
    rewrite Ey. constructor; [|exact Hy].
    unfold number_le. rewrite Ex. lra.
  - assert (Hle : (qy <= qx)%Q).
    { destruct (Qlt_le_dec qx qy) as [Hlt|]; [|assumption].
      apply (byTimestampDesc_pos x y qx qy Ex Ey) in Hlt. congruence. }
    constructor.
    { constructor; [exact Hl|]. rewrite Ey. exact Hy. }
    constructor; [unfold number_le; rewrite Ex, Ey; exact Hle|].
    eapply Forall_impl; [exact Hy|]. intros z Hz. cbn in Hz.
    unfold number_le in *. rewrite Ex.
    destruct (timestamp z); [lra|contradiction].
Qed.

Lemma sort_descending (l : list E) :
  Forall (fun e => timestamp e <> JS.NaN) l ->
  descending timestamp (JS.sort (byTimestampDesc timestamp) l).
Proof.
  induction 1 as [|x l Hx Hl IH]; cbn; [constructor|].
  apply sort_insert_descending; [|exact IH].
  constructor; [exact Hx|].
  eapply Permutation_Forall; [symmetry; apply sort_Permutation|exact Hl].
Qed.

Lemma sort_keepsOrderOfTies (l : list E) :
  keepsOrderOfTies timestamp l (JS.sort (byTimestampDesc timestamp) l).
Proof.
  intros t. induction l as [|x l IH]; [reflexivity|].
  cbn [JS.sort foldr]. rewrite filter_sort_insert.
  - cbn [List.filter]. fold (JS.sort (byTimestampDesc timestamp) l). now rewrite IH.
  - intros y Hx Hy.
    apply number_is_eq in Hx as (qx & Ex & Hx), Hy as (qy & Ey & Hy).
    destruct (JS.number_pos (byTimestampDesc timestamp x y)) eqn:Hxy; [|reflexivity].
    apply (byTimestampDesc_pos x y qx qy Ex Ey) in Hxy. lra.
Qed.

End TimestampSort.

(** ** Grouping by hash *)

Section GroupingProofs.

Lemma Map_get_In {V} (k : string) (m : JS.Map V) (v : V) :
  JS.Map_get k m = Some v -> In (k, v) m.
Proof.
  induction m as [|[k' v'] m IH]; cbn; [discriminate|].
  destruct (String.eqb k' k) eqn:E.
  - apply eqb_true in E. intros [= ->]. subst. now left.
  - intros H. right. now apply IH.
Qed.

Lemma Map_set_In {V} (k : string) (v : V) (m : JS.Map V) (k' : string) (v' : V) :
  In (k', v') (JS.Map_set k v m) -> v' = v \/ In (k', v') m.
Proof.
  induction m as [|[k0 v0] m IH]; cbn.
  - intros [[= -> ->]|[]]. now left.
  - destruct (String.eqb k0 k); cbn.
    + intros [[= -> ->]|H]; [now left|right; now right].
    + intros [H|H]; [right; now left|].
      destruct (IH H); [now left|right; now right].
Qed.

Lemma fold_groupStep_rows (raw seen : list BlockscoutTransaction)
  (acc : JS.Map (list BlockscoutTransaction)) :
  (forall k g r, In (k, g) acc -> In r g -> In r seen) ->
  forall k g r,
    In (k, g) (fold_left groupStep raw acc) -> In r g -> In r (seen ++ raw)%list.
Proof.
  revert seen acc. induction raw as [|tx raw IH]; intros seen acc Hacc k g r Hg Hr.
  - rewrite app_nil_r. eapply Hacc; eassumption.
  - cbn [fold_left] in Hg. unfold groupStep at 2 in Hg.
    replace (seen ++ tx :: raw)%list with ((seen ++ [tx]) ++ raw)%list
      by (rewrite <- app_assoc; reflexivity).
    eapply IH; [|exact Hg|exact Hr].
    intros k' g' r' Hg' Hr'. apply in_or_app.
    apply Map_set_In in Hg' as [->|Hg'].
    + apply in_app_or in Hr' as [Hr'|Hr']; [left|right; exact Hr'].
      destruct (JS.Map_get (hash tx) acc) as [cur|] eqn:Hcur; cbn in Hr'; [|contradiction].
      eapply Hacc; [apply Map_get_In; exact Hcur|exact Hr'].
    + left. eapply Hacc; eassumption.
Qed.

(** Every row of a group is a row of the input. *)
Lemma groupByHash_rows (raw : list BlockscoutTransaction) k g r :
  In (k, g) (groupByHash raw) -> In r g -> In r raw.
Proof.
  intros Hg Hr.
  apply (fold_groupStep_rows raw [] [] (fun _ _ _ H => match H with end) k g r Hg Hr).
Qed.

(** Every event pushed was pushed by the callback on one of the groups. *)
Lemma forEach_push_In {V E} (callback : V -> string -> result (option E))
  (m : JS.Map V) (events : list E) (e : E) :
  forEach_push callback m = Ok events -> In e events ->
  exists k v, In (k, v) m /\ callback v k = Ok (Some e).
Proof.
  revert events. induction m as [|[k v] m IH]; cbn; intros events.
  - intros [= <-] [].
  - destruct (callback v k) as [pushed|] eqn:Hcb; cbn; [|discriminate].
    destruct (forEach_push callback m) as [rest|]; cbn; [|discriminate].
    intros [= <-] He.
    assert (Hrest : In e rest -> exists k0 v0, In (k0, v0) ((k, v) :: m)
                                                  /\ callback v0 k0 = Ok (Some e)).
    { intros H. destruct (IH rest eq_refl H) as (k0 & v0 & Hin & Hk).
      exists k0, v0. split; [now right|exact Hk]. }
    destruct pushed as [e0|]; [|auto].
    destruct He as [<-|He]; [|auto].
    exists k, v. split; [now left|exact Hcb].
Qed.

End GroupingProofs.

(** ** The row behind each event *)

Section EventSourceProofs.
Context {imports : Imports}.

Lemma exchangeLegs_In (userAddress : string) (t0 t1 : BlockscoutTransaction) :
  In (fst (exchangeLegs userAddress t0 t1)) [t0; t1]
  /\ In (snd (exchangeLegs userAddress t0 t1)) [t0; t1].
Proof.
  unfold exchangeLegs. destruct (_ =? _); cbn; auto.
Qed.

Ltac step_result :=
  match goal with
  | |- context [match ?c with Ok _ => _ | Throw _ => _ end] =>
      destruct c eqn:?; cbn; try discriminate
  | |- context [bind ?c _] => destruct c eqn:?; cbn; try discriminate
  | |- context [match ?p with (_, _) => _ end] => destruct p; cbn
  end.

Lemma feedEventOfGroup_row this userAddress transactions txhash e :
  feedEventOfGroup this userAddress transactions txhash = Ok (Some e) ->
  exists row,
    In row transactions
    /\ event_timestamp e = numberOf (timeStamp row)
    /\ event_block e = numberOf (blockNumber row).
Proof.
  unfold feedEventOfGroup.
  destruct transactions as [|t0 [|t1 [|t2 rest]]]; [discriminate| | |].
  2:{ pose proof (exchangeLegs_In userAddress t0 t1) as [Hin _].
      destruct (exchangeLegs userAddress t0 t1) as [inEvent outEvent].
      repeat step_result. intros [= <-]. exists inEvent. cbn. auto. }
  all: repeat step_result; intros [= <-]; exists t0; cbn; auto.
Qed.

Lemma pickTransfer_In (stableTokenTxs : list BlockscoutTransaction) row :
  pickTransfer stableTokenTxs = Some row -> In row stableTokenTxs.
Proof.
  unfold pickTransfer.
  destruct stableTokenTxs as [|t0 [|t1 [|t2 [|t3 rest]]]]; try discriminate.
  - intros [= <-]. now left.
  - repeat match goal with
      | |- context [BigNumber.isEqualTo ?x ?y] => destruct (BigNumber.isEqualTo x y)
      end; intros [= <-]; cbn; auto.
Qed.

Lemma tokenTransferEvent_row this userAddress event txhash e :
  tokenTransferEvent this userAddress event txhash = Ok e ->
  token_event_timestamp e = milliseconds (timeStamp event)
  /\ MoneyAmount.timestamp (token_event_amount e) = milliseconds (timeStamp event)
  /\ token_event_block e = blockNumber event.
Proof.
  unfold tokenTransferEvent. repeat step_result.
  intros [= <-]. cbn. auto.
Qed.

Lemma tokenEventOfGroup_row this userAddress token transactions txhash e :
  tokenEventOfGroup this userAddress token transactions txhash = Ok (Some e) ->
  exists row,
    In row transactions
    /\ token_event_timestamp e = milliseconds (timeStamp row)
    /\ MoneyAmount.timestamp (token_event_amount e) = milliseconds (timeStamp row)
    /\ token_event_block e = blockNumber row.
Proof.
  assert (Hother :
    match pickTransfer (stableTokenTxsOf this transactions) with
    | Some event =>
        let* e := tokenTransferEvent this userAddress event txhash in Ok (Some e)
    | None => Ok None
    end = Ok (Some e) ->
    exists row,
      In row transactions
      /\ token_event_timestamp e = milliseconds (timeStamp row)
      /\ MoneyAmount.timestamp (token_event_amount e) = milliseconds (timeStamp row)
      /\ token_event_block e = blockNumber row).
  { destruct (pickTransfer _) as [event|] eqn:Hpick; [|discriminate].
    step_result. intros [= <-]. exists event. split.
    - apply pickTransfer_In in Hpick. unfold stableTokenTxsOf in Hpick.
      apply sort_In, filter_In in Hpick. tauto.
    - now apply (tokenTransferEvent_row this userAddress event txhash). }
  unfold tokenEventOfGroup.
  destruct transactions as [|t0 [|t1 [|t2 rest]]]; try exact Hother.
  clear Hother.
  pose proof (exchangeLegs_In userAddress t0 t1) as [Hin _].
  destruct (exchangeLegs userAddress t0 t1) as [inEvent outEvent].
  destruct (JS.find_from _ _ _) as [[i tokenEvent]|]; [|discriminate].
  intros [= <-]. exists inEvent. cbn. auto.
Qed.

Lemma rewardsPushed_row this rawTransactions rewards e :
  rewardsPushed this rawTransactions = Ok rewards -> In e rewards ->
  exists row,
    In row rawTransactions
    /\ TransferEvent.timestamp e = numberOf (timeStamp row)
    /\ TransferEvent.block e = numberOf (blockNumber row).
Proof.
  revert rewards. induction rawTransactions as [|t rest IH]; cbn; intros rewards.
  - intros [= <-] [].
  - destruct (negb _).
    + intros H He. destruct (IH _ H He) as (row & Hrow & Hts). eauto.
    + repeat step_result. intros [= <-] [<-|He].
      * exists t. cbn. auto.
      * destruct (IH _ eq_refl He) as (row & Hrow & Hts). eauto.
Qed.

End EventSourceProofs.

(** ** Timestamps and blocks *)

Section TimestampProofs.
Context {imports : Imports}.

Lemma feedEventsPushed_row this userAddress rawTransactions pushed e :
  feedEventsPushed this userAddress rawTransactions = Ok pushed -> In e pushed ->
  exists row,
    In row rawTransactions
    /\ event_timestamp e = numberOf (timeStamp row)
    /\ event_block e = numberOf (blockNumber row).
Proof.
  intros Hpushed He.
  destruct (forEach_push_In _ _ _ _ Hpushed He) as (k & g & Hg & Hcb).
  destruct (feedEventOfGroup_row _ _ _ _ _ Hcb) as (row & Hrow & Hts).
  exists row. split; [|exact Hts]. eapply groupByHash_rows; eassumption.
Qed.

Lemma tokenEventsPushed_row this userAddress token rawTransactions pushed e :
  tokenEventsPushed this userAddress token rawTransactions = Ok pushed ->
  In e pushed ->
  exists row,
    In row rawTransactions
    /\ token_event_timestamp e = milliseconds (timeStamp row)
    /\ MoneyAmount.timestamp (token_event_amount e) = milliseconds (timeStamp row)
    /\ token_event_block e = blockNumber row.
Proof.
  intros Hpushed He.
  destruct (forEach_push_In _ _ _ _ Hpushed He) as (k & g & Hg & Hcb).
  destruct (tokenEventOfGroup_row _ _ _ _ _ _ Hcb) as (row & Hrow & Hts).
  exists row. split; [|exact Hts]. eapply groupByHash_rows; eassumption.
Qed.

(** C7 (as amended): every event of [getFeedEvents] and [getFeedRewards]
    carries the [timeStamp] of a row of the input as a number of seconds and
    its [blockNumber] as a number; every event of [getTokenTransactions]
    carries, as its timestamp and as the timestamp of its amount, the
    [timeStamp] of a row times 1000, and that row's [blockNumber] as the
    string it came in. *)
Theorem feed_timestamps (this : BlockscoutAPI) (address token : string)
  (rawTransactions : list BlockscoutTransaction) :
  (forall out e,
      fst (getFeedEvents this address rawTransactions) = Ok out -> In e out ->
      exists row,
        In row rawTransactions
        /\ event_timestamp e = numberOf (timeStamp row)
        /\ event_block e = numberOf (blockNumber row))
  /\ (forall out e,
         fst (getFeedRewards this rawTransactions) = Ok out -> In e out ->
         exists row,
           In row rawTransactions
           /\ TransferEvent.timestamp e = numberOf (timeStamp row)
           /\ TransferEvent.block e = numberOf (blockNumber row))
  /\ (forall out e,
         fst (getTokenTransactions this address token rawTransactions) = Ok out ->
         In e out ->
         exists row,
           In row rawTransactions
           /\ token_event_timestamp e
              = JS.number_mul (numberOf (timeStamp row)) (JS.Num 1000)
           /\ MoneyAmount.timestamp (token_event_amount e)
              = JS.number_mul (numberOf (timeStamp row)) (JS.Num 1000)
           /\ token_event_block e = blockNumber row).
Proof.
  split; [|split]; intros out e; cbn [fst getFeedEvents getFeedRewards getTokenTransactions].
  - destruct (feedEventsPushed _ _ _) as [pushed|] eqn:Hpushed; cbn; [|discriminate].
    intros [= <-] He. apply sort_In in He.
    eapply feedEventsPushed_row; eassumption.
  - destruct (rewardsPushed _ _) as [pushed|] eqn:Hpushed; cbn; [|discriminate].
    intros [= <-] He. apply sort_In in He.
    eapply rewardsPushed_row; eassumption.
  - destruct (tokenEventsPushed _ _ _ _) as [pushed|] eqn:Hpushed; cbn; [|discriminate].
    intros [= <-] He. apply sort_In, filter_In in He. destruct He as [He _].
    eapply tokenEventsPushed_row; eassumption.
Qed.

End TimestampProofs.

(** C7 (as stated) fails: for one and the same row, sent in second
    1600000000, the event of [getFeedEvents] carries 1600000000 and the
    event of [getTokenTransactions] carries 1600000000000, in the event
    and in its amount. *)
Lemma token_feed_timestamp_not_seconds :
  (exists e,
      fst (@getFeedEvents Demo.imports Demo.fresh Sample.viewer [Sample.sent])
      = Ok [e]
      /\ event_timestamp e = JS.Num (inject_Z 1600000000))
  /\ (exists e,
         fst (@getTokenTransactions Demo.imports Demo.fresh Sample.viewer "cUSD"
                [Sample.sent]) = Ok [e]
         /\ token_event_timestamp e = JS.Num (inject_Z 1600000000000)
         /\ MoneyAmount.timestamp (token_event_amount e)
            = JS.Num (inject_Z 1600000000000)
         /\ token_event_timestamp e
            <> @numberOf Demo.imports (timeStamp Sample.sent)).
Proof.
  split.
  - eexists. split; [vm_compute; reflexivity|reflexivity].
  - eexists. split; [vm_compute; reflexivity|].
    repeat split; try reflexivity. vm_compute. discriminate.
Qed.

(** ** Order of the feeds *)

Section OrderProofs.
Context {imports : Imports}.

Lemma numberOf_number (s : string) :
  newBigNumber s <> BigNumber.BNaN ->
  numberOf s <> JS.NaN /\ milliseconds s <> JS.NaN.
Proof.
  unfold milliseconds, numberOf. destruct (newBigNumber s); cbn; [|congruence].
  intros _. split; discriminate.
Qed.

Lemma sort_by_timestamp {E} (timestamp : E -> JS.number) (pushed : list E) :
  Forall (fun e => timestamp e <> JS.NaN) pushed ->
  let out := JS.sort (byTimestampDesc timestamp) pushed in
  Permutation out pushed
  /\ descending timestamp out
  /\ keepsOrderOfTies timestamp pushed out.
Proof.
  intros Hnum. cbv zeta. split; [apply sort_Permutation|].
  split; [now apply sort_descending|apply sort_keepsOrderOfTies].
Qed.

(** C5: when the [timeStamp] of every row is a number, each of
    [getFeedEvents], [getFeedRewards] and [getTokenTransactions] returns the
    events it pushed (for the last, those of the requested token) in
    descending order of timestamp, the events of one timestamp in the order
    in which they were pushed; it throws only if pushing the events did. *)
Theorem feeds_sorted_stable (this : BlockscoutAPI) (address token : string)
  (rawTransactions : list BlockscoutTransaction) :
  Forall (fun row => newBigNumber (timeStamp row) <> BigNumber.BNaN) rawTransactions ->
  let this' := fst (ensureTokenAddresses this) in
  let userAddress := JS.toLowerCase address in
  match feedEventsPushed this' userAddress rawTransactions with
  | Ok pushed =>
      exists out,
        fst (getFeedEvents this address rawTransactions) = Ok out
        /\ Permutation out pushed
        /\ descending event_timestamp out
        /\ keepsOrderOfTies event_timestamp pushed out
  | Throw msg => fst (getFeedEvents this address rawTransactions) = Throw msg
  end
  /\ match rewardsPushed this' rawTransactions with
     | Ok pushed =>
         exists out,
           fst (getFeedRewards this rawTransactions) = Ok out
           /\ Permutation out pushed
           /\ descending TransferEvent.timestamp out
           /\ keepsOrderOfTies TransferEvent.timestamp pushed out
     | Throw msg => fst (getFeedRewards this rawTransactions) = Throw msg
     end
  /\ match tokenEventsPushed this' userAddress token rawTransactions with
     | Ok pushed =>
         let ofToken :=
           List.filter
             (fun event => MoneyAmount.currencyCode (token_event_amount event) =? token)
             pushed in
         exists out,
           fst (getTokenTransactions this address token rawTransactions) = Ok out
           /\ Permutation out ofToken
           /\ descending token_event_timestamp out
           /\ keepsOrderOfTies token_event_timestamp ofToken out
     | Throw msg =>
         fst (getTokenTransactions this address token rawTransactions) = Throw msg
     end.
Proof.
  intros Hrows. cbv zeta.
  unfold getFeedEvents, getFeedRewards, getTokenTransactions. cbn [fst].
  rewrite List.Forall_forall in Hrows.
  split; [|split].
  - destruct (feedEventsPushed _ _ _) as [pushed|msg] eqn:Hpushed; cbn; [|reflexivity].
    eexists. split; [reflexivity|]. apply sort_by_timestamp.
    apply List.Forall_forall. intros e He.
    destruct (feedEventsPushed_row _ _ _ _ _ Hpushed He) as (row & Hrow & -> & _).
    now apply numberOf_number, Hrows.
  - destruct (rewardsPushed _ _) as [pushed|msg] eqn:Hpushed; cbn; [|reflexivity].
    eexists. split; [reflexivity|]. apply sort_by_timestamp.
    apply List.Forall_forall. intros e He.
    destruct (rewardsPushed_row _ _ _ _ Hpushed He) as (row & Hrow & -> & _).
    now apply numberOf_number, Hrows.
  - destruct (tokenEventsPushed _ _ _ _) as [pushed|msg] eqn:Hpushed; cbn; [|reflexivity].
    eexists. split; [reflexivity|]. apply sort_by_timestamp.
    apply List.Forall_forall. intros e He. apply filter_In in He as [He _].
    destruct (tokenEventsPushed_row _ _ _ _ _ _ Hpushed He) as (row & Hrow & -> & _).
    now apply numberOf_number, Hrows.
Qed.

End OrderProofs.

Lemma feeds_sorted_stable_witness :
  Forall (fun row => Demo.readDecimal (timeStamp row) <> BigNumber.BNaN) Sample.ties
  /\ exists a b c,
      fst (@getFeedEvents Demo.imports Demo.fresh Sample.viewer Sample.ties)
      = Ok [a; b; c]
      /\ event_timestamp a = JS.Num (inject_Z 1600000500)
      /\ @feedEventsPushed Demo.imports Demo.ready (JS.toLowerCase Sample.viewer)
           Sample.ties = Ok [b; a; c]
      /\ descending event_timestamp [a; b; c]
      /\ keepsOrderOfTies event_timestamp [b; a; c] [a; b; c].
Proof.
  assert (Hrows : Forall (fun row => Demo.readDecimal (timeStamp row) <> BigNumber.BNaN)
                    Sample.ties).
  { repeat constructor; vm_compute; discriminate. }
  split; [exact Hrows|].
  pose proof (@feeds_sorted_stable Demo.imports Demo.fresh Sample.viewer "cUSD"
                Sample.ties Hrows) as [Hfeed _].
  cbv zeta in Hfeed.
  destruct (@feedEventsPushed Demo.imports _ _ Sample.ties) as [pushed|] eqn:Hpushed;
    [|vm_compute in Hpushed; discriminate].
  vm_compute in Hpushed. injection Hpushed as <-.
  destruct Hfeed as (out & Hout & _ & Hdesc & Hties).
  vm_compute in Hout. injection Hout as <-.
  do 3 eexists. split; [vm_compute; reflexivity|].
  split; [reflexivity|]. split; [reflexivity|]. split; [exact Hdesc|exact Hties].
Defined.

(** ** Exchange amounts *)

Section ExchangeValueProofs.
Context {imports : Imports}.

Lemma Qfloor_half (m : Z) : Qfloor (inject_Z m + (1 # 2)) = m.
Proof.
  pose proof (Qfloor_le (inject_Z m + (1 # 2))) as Hle.
  pose proof (Qlt_floor (inject_Z m + (1 # 2))) as Hlt.
  set (f := Qfloor _) in *.
  assert (H1 : (inject_Z f < inject_Z (m + 1))%Q).
  { rewrite inject_Z_plus. change (inject_Z 1) with 1%Q. lra. }
  assert (H2 : (inject_Z m < inject_Z (f + 1))%Q) by lra.
  rewrite <- Zlt_Qlt in H1, H2. lia.
Qed.

Lemma Qceiling_half (m : Z) : Qceiling (inject_Z m - (1 # 2)) = m.
Proof.
  unfold Qceiling.
  assert (H : (- (inject_Z m - (1 # 2)) == inject_Z (- m) + (1 # 2))%Q).
  { rewrite inject_Z_opp. lra. }
  rewrite H, Qfloor_half. lia.
Qed.

(** An integer divided by 10^18 has 18 decimal places: rounding to 20
    places leaves it as it is. *)
Lemma round_gold (v : Q) (z : Z) :
  (v == inject_Z z)%Q ->
  (BigNumber.round (v / inject_Z (10 ^ 18)) * inject_Z (10 ^ 18) == inject_Z z)%Q.
Proof.
  intros Hv. unfold BigNumber.round, BigNumber.DECIMAL_PLACES.
  assert (Hs : (v / inject_Z (10 ^ 18) * inject_Z (10 ^ 20) == inject_Z (z * 100))%Q).
  { rewrite Hv, inject_Z_mult.
    change (inject_Z (10 ^ 20)) with (inject_Z (10 ^ 18 * 100)).
    rewrite (inject_Z_mult (10 ^ 18) 100). field. vm_compute. discriminate. }
  assert (H100 : (inject_Z (z * 100) / inject_Z (10 ^ 20) * inject_Z (10 ^ 18)
                  == inject_Z z)%Q).
  { rewrite inject_Z_mult.
    change (inject_Z (10 ^ 20)) with (inject_Z (10 ^ 18 * 100)).
    rewrite (inject_Z_mult (10 ^ 18) 100). field. vm_compute. repeat split; discriminate. }
  destruct (Qle_bool 0 _).
  - rewrite Hs, Qfloor_half. exact H100.
  - rewrite Hs, Qceiling_half. exact H100.
Qed.

(** *** Rounding to a double *)

Lemma toDouble_comp (p q : Q) : (p == q)%Q -> JS.toDouble p = JS.toDouble q.
Proof.
  intros H. unfold JS.toDouble. now rewrite (Qred_complete p q H).
Qed.

Lemma round_half_even_near (n d : Z) :
  (0 < d)%Z -> (2 * Z.abs (JS.round_half_even n d * d - n) <= d)%Z.
Proof.
  intros Hd. unfold JS.round_half_even.
  pose proof (Z.div_mod n d ltac:(lia)) as Hdiv.
  pose proof (Z.mod_pos_bound n d Hd) as Hmod.
  destruct (Z.compare_spec (2 * (n mod d)) d) as [Heq|Hlt|Hgt];
    [destruct (Z.even (n / d))| |]; nia.
Qed.

Lemma floor_log2_lower (a d : Z) :
  (0 < a)%Z -> (0 < d)%Z ->
  let fl := JS.floor_log2 a d in
  (d * 2 ^ Z.max fl 0 <= a * 2 ^ Z.max (- fl) 0)%Z
  /\ (Z.log2 a - Z.log2 d - 1 <= fl)%Z.
Proof.
  intros Ha Hd. cbv zeta. unfold JS.floor_log2.
  set (k := (Z.log2 a - Z.log2 d)%Z).
  destruct (Z.leb_spec (d * 2 ^ Z.max k 0) (a * 2 ^ Z.max (- k) 0)) as [Hle|Hgt].
  - split; [exact Hle|lia].
  - split; [|lia].
    pose proof (Z.log2_spec a Ha) as [Hla _].
    pose proof (Z.log2_spec d Hd) as [_ Hld].
    pose proof (Z.log2_nonneg a) as Hna. pose proof (Z.log2_nonneg d) as Hnd.
    destruct (Z.le_gt_cases 1 k) as [Hk|Hk].
    + rewrite (Z.max_l (k - 1) 0), (Z.max_r (- (k - 1)) 0) by lia.
      rewrite Z.pow_0_r, Z.mul_1_r.
      assert (Hpow : (2 ^ Z.log2 a = 2 ^ Z.succ (Z.log2 d) * 2 ^ (k - 1))%Z).
      { rewrite <- Z.pow_add_r by lia. f_equal. unfold k. lia. }
      assert (0 < 2 ^ (k - 1))%Z by (apply Z.pow_pos_nonneg; lia).
      nia.
    + rewrite (Z.max_r (k - 1) 0), (Z.max_l (- (k - 1)) 0) by lia.
      rewrite Z.pow_0_r, Z.mul_1_r.
      assert (Hpow : (2 ^ Z.succ (Z.log2 d) = 2 ^ Z.log2 a * 2 ^ (- (k - 1)))%Z).
      { rewrite <- Z.pow_add_r by lia. f_equal. unfold k. lia. }
      assert (0 < 2 ^ (- (k - 1)))%Z by (apply Z.pow_pos_nonneg; lia).
      nia.
Qed.

(** With the exponent taken from [floor_log2], the scaled value is at
    least 2^52: the mantissa has its 53 bits. *)
Lemma normalized_lower (a d fl : Z) :
  (0 < a)%Z -> (0 < d)%Z ->
  (d * 2 ^ Z.max fl 0 <= a * 2 ^ Z.max (- fl) 0)%Z ->
  let e := (fl - 52)%Z in
  (2 ^ 52 * (d * 2 ^ Z.max e 0) <= a * 2 ^ Z.max (- e) 0)%Z.
Proof.
  intros Ha Hd Hfl. cbv zeta.
  destruct (Z.le_gt_cases 52 fl) as [H52|H52].
  - rewrite (Z.max_l (fl - 52) 0), (Z.max_r (- (fl - 52)) 0) by lia.
    rewrite (Z.max_l fl 0), (Z.max_r (- fl) 0) in Hfl by lia.
    replace fl with (52 + (fl - 52))%Z in Hfl at 1 by lia.
    rewrite Z.pow_add_r in Hfl by lia. rewrite Z.pow_0_r in *. lia.
  - rewrite (Z.max_r (fl - 52) 0), (Z.max_l (- (fl - 52)) 0) by lia.
    rewrite Z.pow_0_r, Z.mul_1_r.
    destruct (Z.le_gt_cases 0 fl) as [H0|H0].
    + rewrite (Z.max_l fl 0), (Z.max_r (- fl) 0) in Hfl by lia.
      rewrite Z.pow_0_r, Z.mul_1_r in Hfl.
      assert (Hpow : (2 ^ 52 = 2 ^ fl * 2 ^ (- (fl - 52)))%Z).
      { rewrite <- Z.pow_add_r by lia. f_equal. lia. }
      assert (0 < 2 ^ (- (fl - 52)))%Z by (apply Z.pow_pos_nonneg; lia).
      rewrite Hpow. nia.
    + rewrite (Z.max_r fl 0), (Z.max_l (- fl) 0) in Hfl by lia.
      rewrite Z.pow_0_r, Z.mul_1_r in Hfl.
      assert (Hpow : (2 ^ (- (fl - 52)) = 2 ^ (- fl) * 2 ^ 52)%Z).
      { rewrite <- Z.pow_add_r by lia. f_equal. lia. }
      rewrite Hpow. nia.
Qed.

Lemma Qabs_frac (t p : Z) :
  (0 < p)%Z -> (Qabs (inject_Z t / inject_Z p) == inject_Z (Z.abs t) / inject_Z p)%Q.
Proof.
  intros Hp. destruct p as [|p|p]; try lia.
  rewrite <- !Qmake_Qdiv. reflexivity.
Qed.

Lemma frac_le (n1 d1 n2 d2 : Z) :
  (0 < d1)%Z -> (0 < d2)%Z -> (n1 * d2 <= n2 * d1)%Z ->
  (inject_Z n1 / inject_Z d1 <= inject_Z n2 / inject_Z d2)%Q.
Proof.
  intros H1 H2 H. destruct d1 as [|p1|p1], d2 as [|p2|p2]; try lia.
  rewrite <- !Qmake_Qdiv. exact H.
Qed.

(** Above the subnormal range the double is away from the rational by at
    most 2^-53 of it (half a unit in the last of 53 bits). *)
Lemma toDouble_error (q : Q) :
  (Z.log2 (Z.pos (Qden (Qred q))) <= 1000)%Z ->
  (Qabs (JS.toDouble q - q) * inject_Z (2 ^ 53) <= Qabs q)%Q.
Proof.
  intros Hden. unfold JS.toDouble.
  pose proof (Qred_correct q) as Hq.
  destruct (Qred q) as [a' d]. cbn [Qnum Qden] in *.
  destruct (Z.eqb_spec (Z.abs a') 0) as [Hzero|Hpos].
  - assert (Ha : a' = 0%Z) by lia. subst a'.
    assert (Hq0 : (q == 0)%Q) by (rewrite <- Hq; reflexivity).
    rewrite Hq0. vm_compute. discriminate.
  - set (a := Z.abs a') in *. set (dd := Z.pos d) in *.
    assert (Ha : (0 < a)%Z) by lia. assert (Hd : (0 < dd)%Z) by (subst dd; lia).
    destruct (floor_log2_lower a dd Ha Hd) as [Hfl Hfl'].
    set (fl := JS.floor_log2 a dd) in *.
    pose proof (Z.log2_nonneg a) as Hla.
    rewrite (Z.max_l (fl - 52) (- 1074)) by lia.
    pose proof (normalized_lower a dd fl Ha Hd Hfl) as Hnorm. cbv zeta in Hnorm.
    set (e := (fl - 52)%Z) in *.
    set (pe := (2 ^ Z.max e 0)%Z) in *. set (ne := (2 ^ Z.max (- e) 0)%Z) in *.
    assert (Hpe : (0 < pe)%Z) by (apply Z.pow_pos_nonneg; lia).
    assert (Hne : (0 < ne)%Z) by (apply Z.pow_pos_nonneg; lia).
    pose proof (round_half_even_near (a * ne) (dd * pe) ltac:(nia)) as Hnear.
    set (m := JS.round_half_even (a * ne) (dd * pe)) in *.
    rewrite Qred_correct, <- Hq, (Qmake_Qdiv a' d). fold dd.
    assert (Hdiff :
      (inject_Z (Z.sgn a' * m * pe) / inject_Z ne - inject_Z a' / inject_Z dd
       == inject_Z (Z.sgn a' * m * pe * dd - a' * ne) / inject_Z (ne * dd))%Q).
    { unfold Z.sub. rewrite inject_Z_plus, inject_Z_opp, !inject_Z_mult. field.
      split; intros H; unfold Qeq in H; cbn in H; lia. }
    rewrite Hdiff, !Qabs_frac by nia.
    assert (Hscale :
      (inject_Z (Z.abs (Z.sgn a' * m * pe * dd - a' * ne)) / inject_Z (ne * dd)
       * inject_Z (2 ^ 53)
       == inject_Z (Z.abs (Z.sgn a' * m * pe * dd - a' * ne) * 2 ^ 53)
          / inject_Z (ne * dd))%Q).
    { rewrite (inject_Z_mult _ (2 ^ 53)). field.
      intros H; unfold Qeq in H; cbn in H; nia. }
    rewrite Hscale. apply frac_le; [nia|lia|].
    fold a.
    assert (Habs : Z.abs (Z.sgn a' * m * pe * dd - a' * ne)
                   = Z.abs (m * (dd * pe) - a * ne)).
    { subst a. destruct (Z.lt_trichotomy a' 0) as [Hneg|[H0|Hp]]; [|lia|].
      - rewrite (Z.sgn_neg a' Hneg), (Z.abs_neq a') by lia.
        replace (-1 * m * pe * dd - a' * ne)%Z with (- (m * (dd * pe) - - a' * ne))%Z
          by ring. apply Z.abs_opp.
      - rewrite (Z.sgn_pos a' Hp), (Z.abs_eq a') by lia. f_equal. ring. }
    rewrite Habs.
    change (2 ^ 53)%Z with (2 * 2 ^ 52)%Z.
    set (c := (2 ^ 52)%Z) in *.
    set (t := Z.abs (m * (dd * pe) - a * ne)) in *.
    nia.
Qed.

Lemma Qred_den_le (q : Q) : (Z.pos (Qden (Qred q)) <= Z.pos (Qden q))%Z.
Proof.
  destruct q as [n d]. unfold Qred. cbn [Qden].
  pose proof (Z.ggcd_correct_divisors n (Z.pos d)) as Hdiv.
  pose proof (Z.ggcd_gcd n (Z.pos d)) as Hgcd.
  pose proof (Z.gcd_nonneg n (Z.pos d)) as Hg.
  destruct (Z.ggcd n (Z.pos d)) as [g [aa bb]]. cbn [fst snd] in *.
  destruct Hdiv as [_ Hd]. rewrite <- Hgcd in Hg. clear Hgcd. cbn [Qden].
  pose proof (Pos2Z.is_pos d) as Hp.
  assert (Hbb : (0 < bb)%Z) by nia.
  assert (Hgg : (0 < g)%Z) by nia.
  rewrite Z2Pos.id by assumption. nia.
Qed.

Lemma Qred_inject_Z (z : Z) : Qred (inject_Z z) = inject_Z z.
Proof.
  unfold inject_Z, Qred.
  pose proof (Z.ggcd_correct_divisors z 1) as Hdiv.
  pose proof (Z.ggcd_gcd z 1) as Hgcd.
  rewrite Z.gcd_1_r in Hgcd.
  destruct (Z.ggcd z 1) as [g [aa bb]]. cbn [fst snd] in *. subst g.
  destruct Hdiv as [Ha Hb].
  assert (Haa : aa = z) by lia. assert (Hbb : bb = 1%Z) by lia.
  rewrite Haa, Hbb. reflexivity.
Qed.

(** An integer below 2^53 is a double. *)
Lemma toDouble_integer (q : Q) (z : Z) :
  (q == inject_Z z)%Q -> (Z.abs z < 2 ^ 53)%Z -> JS.toDouble q = inject_Z z.
Proof.
  intros Hq Hz. rewrite (toDouble_comp q (inject_Z z) Hq).
  unfold JS.toDouble. rewrite Qred_inject_Z. cbn [Qnum Qden inject_Z].
  destruct (Z.eqb_spec (Z.abs z) 0) as [H0|H0].
  - assert (z = 0%Z) by lia. subst. reflexivity.
  - set (a := Z.abs z) in *. assert (Ha : (0 < a)%Z) by lia.
    assert (Hfl : JS.floor_log2 a 1 = Z.log2 a).
    { unfold JS.floor_log2. change (Z.log2 1) with 0%Z. rewrite Z.sub_0_r.
      pose proof (Z.log2_nonneg a). pose proof (Z.log2_spec a Ha) as [Hlo _].
      rewrite (Z.max_l (Z.log2 a) 0), (Z.max_r (- Z.log2 a) 0) by lia.
      rewrite Z.pow_0_r.
      destruct (Z.leb_spec (1 * 2 ^ Z.log2 a) (a * 1)); [reflexivity|lia]. }
    rewrite Hfl.
    assert (Hlog : (Z.log2 a < 53)%Z) by (apply Z.log2_lt_pow2; lia).
    pose proof (Z.log2_nonneg a) as Hnn.
    rewrite (Z.max_l (Z.log2 a - 52) (- 1074)) by lia.
    set (e := (Z.log2 a - 52)%Z).
    rewrite (Z.max_r e 0), (Z.max_l (- e) 0) by lia.
    rewrite Z.pow_0_r. set (ne := (2 ^ (- e))%Z).
    assert (Hne : (0 < ne)%Z) by (apply Z.pow_pos_nonneg; lia).
    assert (Hm : JS.round_half_even (a * ne) (1 * 1) = (a * ne)%Z).
    { unfold JS.round_half_even. change (1 * 1)%Z with 1%Z.
      rewrite Z.mod_1_r, Z.div_1_r. reflexivity. }
    rewrite Hm. transitivity (Qred (inject_Z z)); [|apply Qred_inject_Z].
    apply Qred_complete.
    assert (Hsgn : (Z.sgn z * (a * ne) * 1 = z * ne)%Z).
    { subst a. pose proof (Z.abs_sgn z). nia. }
    rewrite Hsgn, inject_Z_mult. field.
    intros H; unfold Qeq in H; cbn in H; lia.
Qed.

(** Rounding keeps the sign. *)
Lemma toDouble_sign (q : Q) :
  (Z.log2 (Z.pos (Qden (Qred q))) <= 1000)%Z ->
  (0 < q -> 0 < JS.toDouble q)%Q /\ (q < 0 -> JS.toDouble q < 0)%Q.
Proof.
  intros Hden. pose proof (toDouble_error q Hden) as Herr.
  set (x := JS.toDouble q) in *.
  assert (Hbig : (inject_Z (2 ^ 53) == 9007199254740992)%Q) by reflexivity.
  rewrite Hbig in Herr.
  split; intros Hq.
  - rewrite (Qabs_pos q) in Herr by lra.
    destruct (Qlt_le_dec 0 x) as [|Hx]; [assumption|exfalso].
    rewrite (Qabs_neg (x - q)) in Herr by lra. lra.
  - rewrite (Qabs_neg q) in Herr by lra.
    destruct (Qlt_le_dec x 0) as [|Hx]; [assumption|exfalso].
    rewrite (Qabs_pos (x - q)) in Herr by lra. lra.
Qed.

Lemma inGold_integer (v : Q) (z : Z) :
  (v == inject_Z z)%Q ->
  isInGold z (BigNumber.toNumber (inGold (BigNumber.BN v))).
Proof.
  intros Hv.
  set (quotient := (inject_Z z / inject_Z (10 ^ 18))%Q).
  assert (Hexact : (BigNumber.round (v / inject_Z (10 ^ 18)) == quotient)%Q).
  { pose proof (round_gold v z Hv) as H. unfold quotient. rewrite <- H. field.
    vm_compute. discriminate. }
  assert (Hnum : BigNumber.toNumber (inGold (BigNumber.BN v))
                 = JS.Num (JS.toDouble quotient)).
  { unfold inGold, WEI_PER_GOLD, BigNumber.ofNumber, BigNumber.dividedBy.
    destruct (Qeq_bool (inject_Z (10 ^ 18)) 0) eqn:E.
    - apply Qeq_bool_iff in E. vm_compute in E. discriminate.
    - cbn [BigNumber.toNumber]. f_equal. now apply toDouble_comp. }
  rewrite Hnum. cbn [isInGold]. split; [reflexivity|].
  assert (Hden : (Z.log2 (Z.pos (Qden (Qred quotient))) <= 1000)%Z).
  { pose proof (Qred_den_le quotient) as Hle.
    apply Z.log2_le_mono in Hle.
    assert (Hlog : Z.log2 (Z.pos (Qden quotient)) = 59%Z) by reflexivity.
    lia. }
  pose proof (toDouble_error quotient Hden) as Herr.
  set (x := JS.toDouble quotient) in *.
  assert (Hback : (x * inject_Z (10 ^ 18) - inject_Z z
                   == (x - quotient) * inject_Z (10 ^ 18))%Q).
  { unfold quotient. field. vm_compute. discriminate. }
  assert (Hz : (inject_Z z == quotient * inject_Z (10 ^ 18))%Q).
  { unfold quotient. field. vm_compute. discriminate. }
  rewrite Hback, Hz at 1. rewrite !Qabs_Qmult.
  assert (Hwei : (Qabs (inject_Z (10 ^ 18)) == inject_Z (10 ^ 18))%Q) by reflexivity.
  rewrite Hwei.
  assert (Hswap : (Qabs (x - quotient) * inject_Z (10 ^ 18) * inject_Z (2 ^ 53)
                   == Qabs (x - quotient) * inject_Z (2 ^ 53) * inject_Z (10 ^ 18))%Q)
    by ring.
  rewrite Hswap.
  apply Qmult_le_compat_r; [exact Herr|]. vm_compute. discriminate.
Qed.

(** C8: in the exchange event of a group of two rows whose values are
    integers of at most 256 bits (the quotients are then within the range
    of doubles), [inValue] and [outValue] are the [value] of the in leg and
    of the out leg divided by 10^18: the division itself is exact, and the
    number emitted is the double nearest to the quotient, away from it by
    at most 2^-53 of it.  Timestamp and block are those of the in leg; the
    callback fails only when the token of one of the two contract addresses
    is not found. *)
Theorem exchange_values_in_gold (this : BlockscoutAPI) (userAddress txhash : string)
  (t0 t1 : BlockscoutTransaction) (vin vout : Q) (zin zout : Z) :
  let inEvent := fst (exchangeLegs userAddress t0 t1) in
  let outEvent := snd (exchangeLegs userAddress t0 t1) in
  newBigNumber (value inEvent) = BigNumber.BN vin -> (vin == inject_Z zin)%Q ->
  newBigNumber (value outEvent) = BigNumber.BN vout -> (vout == inject_Z zout)%Q ->
  (Z.abs zin < 2 ^ 256)%Z -> (Z.abs zout < 2 ^ 256)%Z ->
  match feedEventOfGroup this userAddress [t0; t1] txhash with
  | Ok (Some (Exchange e)) =>
      ExchangeEvent.type e = EXCHANGE
      /\ isInGold zin (ExchangeEvent.inValue e)
      /\ isInGold zout (ExchangeEvent.outValue e)
      /\ ExchangeEvent.timestamp e = numberOf (timeStamp inEvent)
      /\ ExchangeEvent.block e = numberOf (blockNumber inEvent)
      /\ getTokenAtAddress this (contractAddress inEvent) = Ok (ExchangeEvent.inSymbol e)
      /\ getTokenAtAddress this (contractAddress outEvent) = Ok (ExchangeEvent.outSymbol e)
  | Ok _ => False
  | Throw msg =>
      getTokenAtAddress this (contractAddress inEvent) = Throw msg
      \/ getTokenAtAddress this (contractAddress outEvent) = Throw msg
  end.
Proof.
  cbv zeta. unfold feedEventOfGroup.
  destruct (exchangeLegs userAddress t0 t1) as [inEvent outEvent]. cbn [fst snd].
  intros Hin Hzin Hout Hzout _ _.
  destruct (getTokenAtAddress this (contractAddress inEvent)) as [inSymbol|]; cbn;
    [|now left].
  destruct (getTokenAtAddress this (contractAddress outEvent)) as [outSymbol|]; cbn;
    [|now right].
  rewrite Hin, Hout. repeat split; now apply inGold_integer.
Qed.

End ExchangeValueProofs.

Lemma exchange_values_in_gold_witness :
  exists e,
    @feedEventOfGroup Demo.imports Demo.ready (JS.toLowerCase Sample.viewer)
      [Sample.soldWei; Sample.boughtWei] "0xa" = Ok (Some (Exchange e))
    /\ isInGold 1234567890123456789 (ExchangeEvent.inValue e)
    /\ isInGold 3000000000000000000 (ExchangeEvent.outValue e)
    /\ ExchangeEvent.inValue e = JS.Num (5559999489923579 # 4503599627370496)
    /\ ExchangeEvent.outValue e = JS.Num 3
    /\ ExchangeEvent.timestamp e = JS.Num (inject_Z 1600001000).
Proof.
  pose proof (@exchange_values_in_gold Demo.imports Demo.ready
                (JS.toLowerCase Sample.viewer) "0xa" Sample.soldWei Sample.boughtWei
                (inject_Z 1234567890123456789) (inject_Z 3000000000000000000)
                1234567890123456789 3000000000000000000
                eq_refl (Qeq_refl _) eq_refl (Qeq_refl _) eq_refl eq_refl) as H.
  destruct (@feedEventOfGroup Demo.imports _ _ _ _) as [[[e|e]|]|msg] eqn:Hev;
    try (vm_compute in Hev; discriminate); try contradiction.
  exists e. split; [reflexivity|].
  destruct H as (_ & Hin & Hout & Hts & _).
  split; [exact Hin|]. split; [exact Hout|].
  vm_compute in Hev. injection Hev as <-.
  split; [reflexivity|]. split; reflexivity.
Defined.

(** ** Groups of other sizes *)

Section GroupSizeProofs.
Context {imports : Imports}.

Lemma tokenEventOfGroup_other this userAddress token transactions txhash :
  length transactions <> 2 ->
  tokenEventOfGroup this userAddress token transactions txhash
  = match pickTransfer (stableTokenTxsOf this transactions) with
    | Some event =>
        let* e := tokenTransferEvent this userAddress event txhash in Ok (Some e)
    | None => Ok None
    end.
Proof.
  intros Hlen. unfold tokenEventOfGroup.
  destruct transactions as [|t0 [|t1 [|t2 rest]]]; try reflexivity.
  now contradiction Hlen.
Qed.

Lemma pickTransfer_length (stableTokenTxs : list BlockscoutTransaction) :
  match pickTransfer stableTokenTxs with
  | Some _ => length stableTokenTxs = 1 \/ length stableTokenTxs = 3
  | None => length stableTokenTxs <> 1 /\ length stableTokenTxs <> 3
  end.
Proof.
  unfold pickTransfer.
  destruct stableTokenTxs as [|t0 [|t1 [|t2 [|t3 rest]]]];
    repeat match goal with
      | |- context [BigNumber.isEqualTo ?x ?y] => destruct (BigNumber.isEqualTo x y)
      end; cbn [length]; lia.
Qed.

Lemma stableTokenTxsOf_length this transactions :
  length (stableTokenTxsOf this transactions)
  = length (List.filter (isStableTokenTx this) transactions).
Proof.
  apply Permutation_length, sort_Permutation.
Qed.

Lemma feedEventOfGroup_first this userAddress transactions txhash first rest :
  length transactions <> 2 -> transactions = first :: rest ->
  feedEventOfGroup this userAddress transactions txhash
  = feedEventOfGroup this userAddress [first] txhash.
Proof.
  intros Hlen ->. destruct rest as [|t1 [|t2 rest]]; try reflexivity.
  now contradiction Hlen.
Qed.

(** C4 (as amended): for a group whose size is not 2,
    [getTokenTransactions] pushes no event when the number of rows that pass
    its filter (stable-token contract, value not '0') is neither 1 nor 3,
    and [getFeedEvents] does with the group what it does with the first row
    alone, whatever the size. *)
Theorem other_group_sizes (this : BlockscoutAPI) (userAddress token txhash : string)
  (transactions : list BlockscoutTransaction) :
  length transactions <> 2 ->
  let survivors := List.filter (isStableTokenTx this) transactions in
  (length survivors <> 1 -> length survivors <> 3 ->
   tokenEventOfGroup this userAddress token transactions txhash = Ok None)
  /\ (forall first rest,
         transactions = first :: rest ->
         feedEventOfGroup this userAddress transactions txhash
         = feedEventOfGroup this userAddress [first] txhash).
Proof.
  intros Hlen. cbv zeta. split.
  - intros H1 H3. rewrite tokenEventOfGroup_other by exact Hlen.
    pose proof (pickTransfer_length (stableTokenTxsOf this transactions)) as Hpick.
    rewrite stableTokenTxsOf_length in Hpick.
    destruct (pickTransfer _); [tauto|reflexivity].
  - intros first rest. now apply feedEventOfGroup_first.
Qed.

(** C10: for a group whose size is not 2, [getTokenTransactions] first
    keeps the rows of the stable-token contract whose value is not '0' and
    pushes an event only if exactly 1 or exactly 3 rows are kept; so a lone
    row that is not kept gives no event, whatever its token symbol and the
    token asked for. *)
Theorem token_group_needs_stable_rows (this : BlockscoutAPI)
  (userAddress token txhash : string) (transactions : list BlockscoutTransaction) :
  length transactions <> 2 ->
  let survivors := List.filter (isStableTokenTx this) transactions in
  tokenEventOfGroup this userAddress token transactions txhash
  = match pickTransfer (JS.sort byValueDesc survivors) with
    | Some event =>
        let* e := tokenTransferEvent this userAddress event txhash in Ok (Some e)
    | None => Ok None
    end
  /\ (forall e,
         tokenEventOfGroup this userAddress token transactions txhash = Ok (Some e) ->
         length survivors = 1 \/ length survivors = 3)
  /\ (forall row,
         transactions = [row] -> isStableTokenTx this row = false ->
         tokenEventOfGroup this userAddress token transactions txhash = Ok None
         /\ tokenEventsPushed this userAddress token [row] = Ok [])
  /\ (forall fresh address row,
         isStableTokenTx (fst (ensureTokenAddresses fresh)) row = false ->
         fst (getTokenTransactions fresh address token [row]) = Ok []).
Proof.
  intros Hlen. cbv zeta.
  pose proof (tokenEventOfGroup_other this userAddress token transactions txhash Hlen)
    as Hother.
  split; [exact Hother|]. split; [|split].
  - intros e He. rewrite Hother in He.
    pose proof (pickTransfer_length (stableTokenTxsOf this transactions)) as Hpick.
    rewrite stableTokenTxsOf_length in Hpick.
    destruct (pickTransfer _); [exact Hpick|discriminate].
  - intros row -> Hrow.
    assert (H : tokenEventOfGroup this userAddress token [row] txhash = Ok None).
    { rewrite Hother. unfold stableTokenTxsOf. cbn. now rewrite Hrow. }
    split; [exact H|].
    unfold tokenEventsPushed. cbn.
    unfold tokenEventOfGroup, stableTokenTxsOf. cbn. now rewrite Hrow.
  - intros fresh address row Hrow.
    unfold getTokenTransactions, tokenEventsPushed. cbn.
    unfold tokenEventOfGroup, stableTokenTxsOf. cbn. now rewrite Hrow.
Qed.

End GroupSizeProofs.

(** C4 (as stated) fails: a group of four rows sharing one hash gives an
    event in both feeds. *)
Lemma four_rows_give_an_event :
  length Sample.mixedFour = 4
  /\ Forall (fun row => hash row = "0x9") Sample.mixedFour
  /\ (exists e,
         fst (@getFeedEvents Demo.imports Demo.fresh Sample.viewer Sample.mixedFour)
         = Ok [Transfer e]
         /\ TransferEvent.type e = SENT)
  /\ (exists e,
         fst (@getTokenTransactions Demo.imports Demo.fresh Sample.viewer "cUSD"
                Sample.mixedFour) = Ok [TTransfer e]
         /\ TokenTransfer.type e = SENT).
Proof.
  split; [reflexivity|]. split; [repeat constructor|].
  split; eexists; (split; [vm_compute; reflexivity|reflexivity]).
Qed.

Lemma other_group_sizes_witness :
  length Sample.stableFour <> 2
  /\ @tokenEventOfGroup Demo.imports Demo.ready (JS.toLowerCase Sample.viewer) "cUSD"
       Sample.stableFour "0x9" = Ok None
  /\ @feedEventOfGroup Demo.imports Demo.ready (JS.toLowerCase Sample.viewer)
       Sample.stableFour "0x9"
     = @feedEventOfGroup Demo.imports Demo.ready (JS.toLowerCase Sample.viewer)
         (take 1 Sample.stableFour) "0x9".
Proof.
  assert (Hlen : length Sample.stableFour <> 2) by (cbn; lia).
  split; [exact Hlen|].
  destruct (@other_group_sizes Demo.imports Demo.ready (JS.toLowerCase Sample.viewer)
              "cUSD" "0x9" Sample.stableFour Hlen) as [Htoken Hfeed].
  split.
  - apply Htoken; vm_compute; lia.
  - eapply Hfeed. reflexivity.
Defined.

Lemma token_group_needs_stable_rows_witness :
  length [Sample.goldOnly] <> 2
  /\ tokenSymbol Sample.goldOnly = "cGLD"
  /\ @isStableTokenTx Demo.ready Sample.goldOnly = false
  /\ @tokenEventOfGroup Demo.imports Demo.ready (JS.toLowerCase Sample.viewer) "cGLD"
       [Sample.goldOnly] "0x5" = Ok None
  /\ @tokenEventsPushed Demo.imports Demo.ready (JS.toLowerCase Sample.viewer) "cGLD"
       [Sample.goldOnly] = Ok [].
Proof.
  assert (Hlen : length [Sample.goldOnly] <> 2) by (cbn; lia).
  split; [exact Hlen|]. split; [reflexivity|]. split; [reflexivity|].
  destruct (@token_group_needs_stable_rows Demo.imports Demo.ready
              (JS.toLowerCase Sample.viewer) "cGLD" "0x5" [Sample.goldOnly] Hlen)
    as (_ & _ & Hlone & _).
  apply (Hlone Sample.goldOnly); reflexivity.
Defined.

(** ** Transfers with a fee currency *)

Section FeeCurrencyProofs.
Context {imports : Imports}.

Lemma byValueDesc_spec (x y : BlockscoutTransaction) (vx vy : Q) :
  newBigNumber (value x) = BigNumber.BN vx ->
  newBigNumber (value y) = BigNumber.BN vy ->
  JS.number_pos (byValueDesc x y) = if Qlt_le_dec vx vy then true else false.
Proof.
  intros Hx Hy. unfold byValueDesc. rewrite Hx, Hy.
  cbn [BigNumber.minus BigNumber.toNumberExact].
  pose proof (number_pos_sub vx vy) as Hpos. cbn [JS.number_sub] in Hpos.
  destruct (Qlt_le_dec vx vy) as [Hlt|Hle].
  - now apply Hpos.
  - destruct (JS.number_pos _); [|reflexivity].
    assert (vx < vy)%Q by now apply Hpos. lra.
Qed.

Lemma pickTransfer_three (tx0 tx1 tx2 : BlockscoutTransaction) :
  let gasValue :=
    BigNumber.multipliedBy (newBigNumber (gasUsed tx0)) (newBigNumber (gasPrice tx0)) in
  pickTransfer [tx0; tx1; tx2]
  = Some (if BigNumber.isEqualTo
               (BigNumber.plus (newBigNumber (value tx0)) (newBigNumber (value tx1)))
               gasValue
          then tx2
          else if BigNumber.isEqualTo
                    (BigNumber.plus (newBigNumber (value tx0)) (newBigNumber (value tx2)))
                    gasValue
          then tx1
          else tx0).
Proof.
  cbv zeta. unfold pickTransfer.
  repeat match goal with
    | |- context [BigNumber.isEqualTo ?x ?y] => destruct (BigNumber.isEqualTo x y)
    end; reflexivity.
Qed.

Lemma paysGas_comm (x y : Q) (gasValue : BigNumber.t) :
  BigNumber.isEqualTo (BigNumber.plus (BigNumber.BN x) (BigNumber.BN y)) gasValue
  = BigNumber.isEqualTo (BigNumber.plus (BigNumber.BN y) (BigNumber.BN x)) gasValue.
Proof.
  destruct gasValue as [g|]; cbn; [|reflexivity].
  destruct (Qeq_bool (x + y) g) eqn:E1, (Qeq_bool (y + x) g) eqn:E2; try reflexivity.
  - apply Qeq_bool_iff in E1. apply Qeq_bool_neq in E2. exfalso. apply E2. lra.
  - apply Qeq_bool_iff in E2. apply Qeq_bool_neq in E1. exfalso. apply E1. lra.
Qed.

Lemma paysGas_true (x y : Q) (gasValue : BigNumber.t) :
  BigNumber.isEqualTo (BigNumber.plus (BigNumber.BN x) (BigNumber.BN y)) gasValue = true ->
  exists g, gasValue = BigNumber.BN g /\ (x + y == g)%Q.
Proof.
  destruct gasValue as [g|]; cbn; [|discriminate].
  intros H. apply Qeq_bool_iff in H. eauto.
Qed.

(** C3: in a group whose rows kept by the filter are exactly three, with
    one gas cost gasUsed x gasPrice [gasValue], the row classified is a row
    left out of a pair whose values add up to [gasValue], when there is
    such a pair; its value is then the value of the row left out of any
    such pair.  When no pair adds up to [gasValue], the row classified has
    the highest value. *)
Theorem fee_currency_transfer_selected (this : BlockscoutAPI)
  (userAddress token txhash : string) (transactions : list BlockscoutTransaction)
  (a b c : BlockscoutTransaction) (va vb vc : Q) :
  List.filter (isStableTokenTx this) transactions = [a; b; c] ->
  gasUsed b = gasUsed a /\ gasUsed c = gasUsed a
  /\ gasPrice b = gasPrice a /\ gasPrice c = gasPrice a ->
  newBigNumber (value a) = BigNumber.BN va ->
  newBigNumber (value b) = BigNumber.BN vb ->
  newBigNumber (value c) = BigNumber.BN vc ->
  let gasValue :=
    BigNumber.multipliedBy (newBigNumber (gasUsed a)) (newBigNumber (gasPrice a)) in
  let paysGas x y :=
    BigNumber.isEqualTo (BigNumber.plus (BigNumber.BN x) (BigNumber.BN y)) gasValue in
  exists event ve,
    tokenEventOfGroup this userAddress token transactions txhash
    = (let* e := tokenTransferEvent this userAddress event txhash in Ok (Some e))
    /\ newBigNumber (value event) = BigNumber.BN ve
    /\ (paysGas va vb = true /\ event = c
        \/ paysGas va vc = true /\ event = b
        \/ paysGas vb vc = true /\ event = a
        \/ paysGas va vb = false /\ paysGas va vc = false /\ paysGas vb vc = false
           /\ In event [a; b; c] /\ (va <= ve)%Q /\ (vb <= ve)%Q /\ (vc <= ve)%Q)
    /\ (paysGas va vb = true -> (ve == vc)%Q)
    /\ (paysGas va vc = true -> (ve == vb)%Q)
    /\ (paysGas vb vc = true -> (ve == va)%Q).
Proof.
  intros Hkept (Hgb & Hgc & Hpb & Hpc) Ha Hb Hc. cbv zeta.
  assert (Hlen : length transactions <> 2).
  { pose proof (filter_length_le (isStableTokenTx this) transactions) as Hle.
    rewrite Hkept in Hle. cbn in Hle. lia. }
  rewrite tokenEventOfGroup_other by exact Hlen.
  unfold stableTokenTxsOf. rewrite Hkept.
  cbn [JS.sort foldr JS.sort_insert].
  rewrite (byValueDesc_spec b c vb vc Hb Hc).
  destruct (Qlt_le_dec vb vc) as [Hbc|Hbc]; cbn [JS.sort_insert];
    rewrite ?(byValueDesc_spec a c va vc Ha Hc), ?(byValueDesc_spec a b va vb Ha Hb).
  all: repeat match goal with
         | |- context [Qlt_le_dec ?x ?y] => destruct (Qlt_le_dec x y); cbn [JS.sort_insert]
         end.
  all: rewrite pickTransfer_three; cbv zeta;
    rewrite ?Hgb, ?Hgc, ?Hpb, ?Hpc, ?Ha, ?Hb, ?Hc;
    set (gasValue := BigNumber.multipliedBy _ _);
    rewrite ?(paysGas_comm vb va), ?(paysGas_comm vc va), ?(paysGas_comm vc vb).
  all: destruct (BigNumber.isEqualTo (BigNumber.plus (BigNumber.BN va) (BigNumber.BN vb))
                   gasValue) eqn:Hab;
    destruct (BigNumber.isEqualTo (BigNumber.plus (BigNumber.BN va) (BigNumber.BN vc))
                gasValue) eqn:Hac;
    destruct (BigNumber.isEqualTo (BigNumber.plus (BigNumber.BN vb) (BigNumber.BN vc))
                gasValue) eqn:Hbc'.
  all: try (apply paysGas_true in Hab as (gab & Egab & Hab));
    try (apply paysGas_true in Hac as (gac & Egac & Hac));
    try (apply paysGas_true in Hbc' as (gbc & Egbc & Hbc'));
    repeat match goal with
      | H1 : ?x = BigNumber.BN ?g1, H2 : ?x = BigNumber.BN ?g2 |- _ =>
          rewrite H1 in H2; injection H2 as <-
      end.
  all: eexists _, _; (split; [reflexivity|]); (split; [eassumption|]).
  all: split;
    [ first [ left; solve [split; reflexivity]
            | right; left; solve [split; reflexivity]
            | right; right; left; solve [split; reflexivity]
            | right; right; right;
              solve [repeat split; cbn [In]; auto; lra] ]
    | repeat split; intros; try discriminate; lra ].
Qed.

End FeeCurrencyProofs.

Lemma fee_currency_transfer_selected_witness :
  List.filter (@isStableTokenTx Demo.ready) Sample.feePaid
  = [Sample.feeTip; Sample.feeBase; Sample.feePaidTransfer]
  /\ exists event,
      @tokenEventOfGroup Demo.imports Demo.ready (JS.toLowerCase Sample.viewer) "cUSD"
        Sample.feePaid "0x7"
      = (let* e := @tokenTransferEvent Demo.imports Demo.ready
                     (JS.toLowerCase Sample.viewer) event "0x7" in
         Ok (Some e))
      /\ event = Sample.feePaidTransfer.
Proof.
  assert (Hkept : List.filter (@isStableTokenTx Demo.ready) Sample.feePaid
                  = [Sample.feeTip; Sample.feeBase; Sample.feePaidTransfer])
    by reflexivity.
  split; [exact Hkept|].
  destruct (@fee_currency_transfer_selected Demo.imports Demo.ready
              (JS.toLowerCase Sample.viewer) "cUSD" "0x7" Sample.feePaid
              Sample.feeTip Sample.feeBase Sample.feePaidTransfer
              (inject_Z 15000) (inject_Z 6000) (inject_Z 2000000000000000000))
    as (event & ve & Hevent & _ & Hwhich & _).
  - exact Hkept.
  - repeat split; reflexivity.
  - reflexivity.
  - reflexivity.
  - reflexivity.
  - exists event. split; [exact Hevent|].
    destruct Hwhich as [[_ H]|[[H _]|[[H _]|[H _]]]];
      [exact H|vm_compute in H; discriminate ..].
Defined.

(** ** Letter case of addresses *)

Section CaseProofs.
Context {imports : Imports}.

Lemma sameUpToCase_fields (tx1 tx2 : BlockscoutTransaction) :
  sameUpToCase tx1 tx2 ->
  value tx1 = value tx2 /\ tokenSymbol tx1 = tokenSymbol tx2
  /\ timeStamp tx1 = timeStamp tx2 /\ input tx1 = input tx2
  /\ hash tx1 = hash tx2 /\ gasUsed tx1 = gasUsed tx2
  /\ gasPrice tx1 = gasPrice tx2 /\ blockNumber tx1 = blockNumber tx2
  /\ JS.toLowerCase (to tx1) = JS.toLowerCase (to tx2)
  /\ JS.toLowerCase (from tx1) = JS.toLowerCase (from tx2)
  /\ JS.toLowerCase (contractAddress tx1) = JS.toLowerCase (contractAddress tx2).
Proof.
  unfold sameUpToCase. intros H.
  repeat split;
    [ apply (f_equal value) in H | apply (f_equal tokenSymbol) in H
    | apply (f_equal timeStamp) in H | apply (f_equal input) in H
    | apply (f_equal hash) in H | apply (f_equal gasUsed) in H
    | apply (f_equal gasPrice) in H | apply (f_equal blockNumber) in H
    | apply (f_equal to) in H | apply (f_equal from) in H
    | apply (f_equal contractAddress) in H ]; exact H.
Qed.

Ltac use_fields H :=
  apply sameUpToCase_fields in H;
  destruct H as (?Hvalue & ?Hsymbol & ?Hts & ?Hinput & ?Hhash & ?HgasUsed
                 & ?HgasPrice & ?Hblock & ?Hto & ?Hfrom & ?Hcontract).

Lemma getTokenAtAddress_case this (a1 a2 : string) :
  JS.toLowerCase a1 = JS.toLowerCase a2 ->
  getTokenAtAddress this a1 = getTokenAtAddress this a2.
Proof.
  intros H. unfold getTokenAtAddress. now rewrite H.
Qed.

Lemma isStableTokenTx_case this tx1 tx2 :
  sameUpToCase tx1 tx2 -> isStableTokenTx this tx1 = isStableTokenTx this tx2.
Proof.
  intros H. use_fields H. unfold isStableTokenTx. now rewrite Hcontract, Hvalue.
Qed.

Lemma exchangeLegs_case userAddress t0 t1 t0' t1' :
  sameUpToCase t0 t0' -> sameUpToCase t1 t1' ->
  sameUpToCase (fst (exchangeLegs userAddress t0 t1))
    (fst (exchangeLegs userAddress t0' t1'))
  /\ sameUpToCase (snd (exchangeLegs userAddress t0 t1))
       (snd (exchangeLegs userAddress t0' t1')).
Proof.
  intros H0 H1. unfold exchangeLegs.
  assert (Hfrom : JS.toLowerCase (from t0) = JS.toLowerCase (from t0'))
    by (apply sameUpToCase_fields in H0; tauto).
  rewrite Hfrom. destruct (_ =? _); cbn; auto.
Qed.

Lemma feedEventOfGroup_case this userAddress txhash g g' :
  Forall2 sameUpToCase g g' ->
  feedEventOfGroup this userAddress g txhash
  = feedEventOfGroup this userAddress g' txhash.
Proof.
  intros Hg. unfold feedEventOfGroup.
  destruct Hg as [|t0 t0' g g' H0 Hg]; [reflexivity|].
  destruct Hg as [|t1 t1' g g' H1 Hg].
  - use_fields H0.
    now rewrite Hinput, Hto, Hfrom, Hts, Hblock, Hvalue,
      (getTokenAtAddress_case this _ _ Hcontract).
  - destruct Hg as [|t2 t2' g g' H2 Hg].
    + destruct (exchangeLegs_case userAddress t0 t1 t0' t1' H0 H1) as [Hin Hout].
      destruct (exchangeLegs userAddress t0 t1) as [i o],
               (exchangeLegs userAddress t0' t1') as [i' o'].
      cbn [fst snd] in Hin, Hout. use_fields Hin. use_fields Hout.
      now rewrite Hts, Hblock, Hvalue, Hvalue0,
        (getTokenAtAddress_case this _ _ Hcontract),
        (getTokenAtAddress_case this _ _ Hcontract0).
    + use_fields H0.
      now rewrite Hinput, Hto, Hfrom, Hts, Hblock, Hvalue,
        (getTokenAtAddress_case this _ _ Hcontract).
Qed.

Lemma tokenTransferEvent_case this userAddress txhash event event' :
  sameUpToCase event event' ->
  tokenTransferEvent this userAddress event txhash
  = tokenTransferEvent this userAddress event' txhash.
Proof.
  intros H. use_fields H. unfold tokenTransferEvent.
  now rewrite Hinput, Hto, Hfrom, Hts, Hblock, Hvalue, Hsymbol.
Qed.

Lemma byValueDesc_case x x' y y' :
  sameUpToCase x x' -> sameUpToCase y y' -> byValueDesc x y = byValueDesc x' y'.
Proof.
  intros Hx Hy. use_fields Hx. use_fields Hy. unfold byValueDesc.
  now rewrite Hvalue, Hvalue0.
Qed.

Lemma sort_Forall2 {A} (R : A -> A -> Prop) (comparefn : A -> A -> JS.number) l l' :
  (forall x x' y y', R x x' -> R y y' -> comparefn x y = comparefn x' y') ->
  Forall2 R l l' -> Forall2 R (JS.sort comparefn l) (JS.sort comparefn l').
Proof.
  intros Hcmp. induction 1 as [|x x' l l' Hx Hl IH]; cbn; [constructor|].
  fold (JS.sort comparefn l) (JS.sort comparefn l').
  induction IH as [|y y' s s' Hy Hs IHs]; cbn; [repeat constructor; exact Hx|].
  rewrite (Hcmp x x' y y' Hx Hy).
  destruct (JS.number_pos _); constructor; auto.
Qed.

Lemma filter_Forall2 {A} (R : A -> A -> Prop) (p : A -> bool) l l' :
  (forall x x', R x x' -> p x = p x') ->
  Forall2 R l l' -> Forall2 R (List.filter p l) (List.filter p l').
Proof.
  intros Hp. induction 1 as [|x x' l l' Hx Hl IH]; cbn; [constructor|].
  rewrite (Hp x x' Hx). destruct (p x'); [constructor|]; assumption.
Qed.

Lemma pickTransfer_case l l' :
  Forall2 sameUpToCase l l' ->
  match pickTransfer l, pickTransfer l' with
  | Some event, Some event' => sameUpToCase event event'
  | None, None => True
  | _, _ => False
  end.
Proof.
  intros Hl. unfold pickTransfer.
  destruct Hl as [|t0 t0' l l' H0 Hl]; [exact I|].
  destruct Hl as [|t1 t1' l l' H1 Hl]; [exact H0|].
  destruct Hl as [|t2 t2' l l' H2 Hl]; [exact I|].
  destruct Hl as [|t3 t3' l l' H3 Hl]; [|exact I].
  pose proof H0 as F0. pose proof H1 as F1. pose proof H2 as F2.
  use_fields F0. use_fields F1. use_fields F2.
  rewrite HgasUsed, HgasPrice, Hvalue, Hvalue0, Hvalue1.
  repeat match goal with
    | |- context [BigNumber.isEqualTo ?x ?y] => destruct (BigNumber.isEqualTo x y)
    end; assumption.
Qed.

Lemma tokenEventOfGroup_case this userAddress token txhash g g' :
  Forall2 sameUpToCase g g' ->
  tokenEventOfGroup this userAddress token g txhash
  = tokenEventOfGroup this userAddress token g' txhash.
Proof.
  intros Hg.
  assert (Hother :
    match pickTransfer (stableTokenTxsOf this g) with
    | Some event =>
        let* e := tokenTransferEvent this userAddress event txhash in Ok (Some e)
    | None => Ok None
    end
    = match pickTransfer (stableTokenTxsOf this g') with
      | Some event =>
          let* e := tokenTransferEvent this userAddress event txhash in Ok (Some e)
      | None => Ok None
      end).
  { assert (Hkept : Forall2 sameUpToCase (stableTokenTxsOf this g)
                      (stableTokenTxsOf this g')).
    { apply sort_Forall2; [intros; now apply byValueDesc_case|].
      apply filter_Forall2; [apply isStableTokenTx_case|exact Hg]. }
    apply pickTransfer_case in Hkept.
    destruct (pickTransfer (stableTokenTxsOf this g)) as [event|],
             (pickTransfer (stableTokenTxsOf this g')) as [event'|];
      try contradiction; [|reflexivity].
    now rewrite (tokenTransferEvent_case this userAddress txhash event event' Hkept). }
  unfold tokenEventOfGroup.
  destruct Hg as [|t0 t0' g g' H0 Hg]; [exact Hother|].
  destruct Hg as [|t1 t1' g g' H1 Hg]; [exact Hother|].
  destruct Hg as [|t2 t2' g g' H2 Hg]; [|exact Hother].
  clear Hother.
  destruct (exchangeLegs_case userAddress t0 t1 t0' t1' H0 H1) as [Hin Hout].
  destruct (exchangeLegs userAddress t0 t1) as [i o],
           (exchangeLegs userAddress t0' t1') as [i' o'].
  cbn [fst snd] in Hin, Hout. use_fields Hin. use_fields Hout.
  cbn [JS.find_from]. rewrite Hsymbol, Hsymbol0.
  destruct (tokenSymbol i' =? token).
  - now rewrite ?Hts, ?Hblock, ?Hvalue, ?Hvalue0, ?Hsymbol, ?Hsymbol0.
  - destruct (tokenSymbol o' =? token); [|reflexivity].
    now rewrite ?Hts, ?Hblock, ?Hvalue, ?Hvalue0, ?Hsymbol, ?Hsymbol0.
Qed.

Local Abbreviation sameGroups :=
  (Forall2 (fun kg kg' : string * list BlockscoutTransaction =>
              fst kg = fst kg' /\ Forall2 sameUpToCase (snd kg) (snd kg'))).

Lemma Map_get_case k m m' :
  sameGroups m m' ->
  match JS.Map_get k m, JS.Map_get k m' with
  | Some g, Some g' => Forall2 sameUpToCase g g'
  | None, None => True
  | _, _ => False
  end.
Proof.
  induction 1 as [|[k0 g0] [k0' g0'] m m' [Hk Hg] Hm IH]; cbn; [exact I|].
  cbn in Hk, Hg. subst k0'. destruct (String.eqb k0 k); [exact Hg|exact IH].
Qed.

Lemma Map_set_case k v v' m m' :
  sameGroups m m' -> Forall2 sameUpToCase v v' ->
  sameGroups (JS.Map_set k v m) (JS.Map_set k v' m').
Proof.
  intros Hm Hv.
  induction Hm as [|[k0 g0] [k0' g0'] m m' [Hk Hg] Hm IH]; cbn.
  - repeat constructor. exact Hv.
  - cbn in Hk, Hg. subst k0'.
    destruct (String.eqb k0 k); constructor; cbn; auto.
Qed.

Lemma groupByHash_case raw raw' :
  Forall2 sameUpToCase raw raw' -> sameGroups (groupByHash raw) (groupByHash raw').
Proof.
  unfold groupByHash.
  assert (Hnil : sameGroups [] []) by constructor. revert Hnil.
  generalize (@nil (string * list BlockscoutTransaction)) at 1 3.
  generalize (@nil (string * list BlockscoutTransaction)).
  intros acc' acc Hacc Hraw. revert acc acc' Hacc.
  induction Hraw as [|tx tx' raw raw' Htx Hraw IH]; intros acc acc' Hacc; [exact Hacc|].
  cbn [fold_left]. apply IH. unfold groupStep.
  assert (Hhash : hash tx = hash tx') by (apply sameUpToCase_fields in Htx; tauto).
  rewrite Hhash. apply Map_set_case; [exact Hacc|].
  pose proof (Map_get_case (hash tx') acc acc' Hacc) as Hget.
  destruct (JS.Map_get (hash tx') acc), (JS.Map_get (hash tx') acc');
    try contradiction; cbn.
  - apply Forall2_app; [exact Hget|]. repeat constructor. exact Htx.
  - repeat constructor. exact Htx.
Qed.

Lemma forEach_push_case {E} (callback callback' : _ -> string -> result (option E)) m m' :
  (forall g g' k, Forall2 sameUpToCase g g' -> callback g k = callback' g' k) ->
  sameGroups m m' ->
  forEach_push callback m = forEach_push callback' m'.
Proof.
  intros Hcb. induction 1 as [|[k g] [k' g'] m m' [Hk Hg] Hm IH]; cbn; [reflexivity|].
  cbn in Hk, Hg. subst k'. now rewrite (Hcb g g' k Hg), IH.
Qed.

Lemma rewardsPushed_case this raw raw' :
  Forall2 sameUpToCase raw raw' -> rewardsPushed this raw = rewardsPushed this raw'.
Proof.
  induction 1 as [|tx tx' raw raw' Htx Hraw IH]; cbn; [reflexivity|].
  use_fields Htx.
  now rewrite Hfrom, Hts, Hblock, Hvalue, Hinput, Hhash, IH,
    (getTokenAtAddress_case this _ _ Hcontract).
Qed.

(** C9: addresses are compared without regard to letter case.  For two
    addresses, two viewing addresses and two lists of rows that differ at
    most in the letter case of addresses, the token lookup, the
    stable-token filter and the three feeds give the same answers. *)
Theorem addresses_case_insensitive (this : BlockscoutAPI) (token : string)
  (tokenAddress1 tokenAddress2 address1 address2 : string)
  (rawTransactions1 rawTransactions2 : list BlockscoutTransaction) :
  JS.toLowerCase tokenAddress1 = JS.toLowerCase tokenAddress2 ->
  JS.toLowerCase address1 = JS.toLowerCase address2 ->
  Forall2 sameUpToCase rawTransactions1 rawTransactions2 ->
  getTokenAtAddress this tokenAddress1 = getTokenAtAddress this tokenAddress2
  /\ Forall2 (fun tx1 tx2 => isStableTokenTx this tx1 = isStableTokenTx this tx2)
       rawTransactions1 rawTransactions2
  /\ getFeedEvents this address1 rawTransactions1
     = getFeedEvents this address2 rawTransactions2
  /\ getFeedRewards this rawTransactions1 = getFeedRewards this rawTransactions2
  /\ getTokenTransactions this address1 token rawTransactions1
     = getTokenTransactions this address2 token rawTransactions2.
Proof.
  intros Htoken Haddress Hraw.
  split; [now apply getTokenAtAddress_case|].
  split; [eapply Forall2_impl; [exact Hraw|]; intros; now apply isStableTokenTx_case|].
  pose proof (groupByHash_case _ _ Hraw) as Hgroups.
  unfold getFeedEvents, getFeedRewards, getTokenTransactions,
    feedEventsPushed, tokenEventsPushed.
  rewrite Haddress. split; [|split].
  - rewrite (forEach_push_case _ (feedEventOfGroup _ (JS.toLowerCase address2))
               _ _ (fun g g' k H => feedEventOfGroup_case _ _ k g g' H) Hgroups).
    reflexivity.
  - now rewrite (rewardsPushed_case _ _ _ Hraw).
  - rewrite (forEach_push_case _ (tokenEventOfGroup _ (JS.toLowerCase address2) token)
               _ _ (fun g g' k H => tokenEventOfGroup_case _ _ _ k g g' H) Hgroups).
    reflexivity.
Qed.

End CaseProofs.

Lemma addresses_case_insensitive_witness :
  Sample.sent <> Sample.sentOtherCase
  /\ Forall2 sameUpToCase [Sample.sent] [Sample.sentOtherCase]
  /\ @getTokenAtAddress Demo.ready "0x57AB1E" = @getTokenAtAddress Demo.ready "0x57ab1e"
  /\ @getFeedEvents Demo.imports Demo.fresh "0xAAA" [Sample.sent]
     = @getFeedEvents Demo.imports Demo.fresh "0xaaa" [Sample.sentOtherCase]
  /\ @getTokenTransactions Demo.imports Demo.fresh "0xAAA" "cUSD" [Sample.sent]
     = @getTokenTransactions Demo.imports Demo.fresh "0xaaa" "cUSD" [Sample.sentOtherCase].
Proof.
  assert (Hraw : Forall2 sameUpToCase [Sample.sent] [Sample.sentOtherCase])
    by (repeat constructor).
  split; [vm_compute; discriminate|]. split; [exact Hraw|].
  split.
  - apply (@addresses_case_insensitive Demo.imports Demo.ready "cUSD"
             "0x57AB1E" "0x57ab1e" "0xAAA" "0xaaa" _ _ eq_refl eq_refl Hraw).
  - split;
      apply (@addresses_case_insensitive Demo.imports Demo.fresh "cUSD"
               "0x57AB1E" "0x57ab1e" "0xAAA" "0xaaa" _ _ eq_refl eq_refl Hraw).
Defined.

(** * Further properties of the data source *)

(** ** The registry across calls *)

Section RegistryCallsProofs.
Context {imports : Imports}.

Lemma populated_spec (this : BlockscoutAPI) :
  bool_decide (is_Some (tokenAddressMapping this))
  && JS.truthy_opt (attestationsAddress this)
  && JS.truthy_opt (escrowAddress this)
  && JS.truthy_opt (goldTokenAddress this)
  && JS.truthy_opt (stableTokenAddress this) = true
  <-> populated this.
Proof.
  unfold populated. rewrite !andb_true_iff, bool_decide_eq_true, !truthy_opt_spec.
  tauto.
Qed.

Lemma ensureTokenAddresses_cases (this : BlockscoutAPI) :
  (populated this /\ ensureTokenAddresses this = (this, []))
  \/ (~ populated this
      /\ ensureTokenAddresses this
         = ({| attestationsAddress :=
                 Some (ContractAddresses.attestationsAddress getContractAddresses);
               tokenAddressMapping :=
                 Some (ContractAddresses.tokenAddressMapping getContractAddresses);
               escrowAddress :=
                 Some (ContractAddresses.escrowAddress getContractAddresses);
               goldTokenAddress :=
                 Some (ContractAddresses.goldTokenAddress getContractAddresses);
               stableTokenAddress :=
                 Some (ContractAddresses.stableTokenAddress getContractAddresses) |},
            [ResolveContractAddresses])).
Proof.
  unfold ensureTokenAddresses.
  destruct (_ && _) eqn:E.
  - left. split; [now apply populated_spec|reflexivity].
  - right. split; [|reflexivity]. intros H. apply populated_spec in H. congruence.
Qed.

(** X1: when the four addresses of the resolution answer are non-empty,
    one call of [ensureTokenAddresses] on any instance makes at most one
    request and leaves the instance populated, and a second call makes no
    request and changes nothing; a call that makes no request leaves the
    instance as it was. *)
Theorem ensureTokenAddresses_twice (this : BlockscoutAPI) :
  ContractAddresses.attestationsAddress getContractAddresses <> EmptyString ->
  ContractAddresses.escrowAddress getContractAddresses <> EmptyString ->
  ContractAddresses.goldTokenAddress getContractAddresses <> EmptyString ->
  ContractAddresses.stableTokenAddress getContractAddresses <> EmptyString ->
  let once := ensureTokenAddresses this in
  populated (fst once)
  /\ length (snd once) <= 1
  /\ (snd once = [] -> fst once = this)
  /\ ensureTokenAddresses (fst once) = (fst once, []).
Proof.
  intros Ha He Hg Hs. cbv zeta.
  assert (Hpop : populated (fst (ensureTokenAddresses this))).
  { destruct (ensureTokenAddresses_cases this) as [[Hp ->]|[_ ->]]; [exact Hp|].
    cbn. unfold populated. cbn. repeat split; eauto. }
  split; [exact Hpop|].
  split; [|split].
  - destruct (ensureTokenAddresses_cases this) as [[_ ->]|[_ ->]]; cbn; lia.
  - destruct (ensureTokenAddresses_cases this) as [[_ ->]|[_ ->]]; cbn;
      [reflexivity|discriminate].
  - destruct (ensureTokenAddresses_cases (fst (ensureTokenAddresses this)))
      as [[_ H]|[Hn _]]; [exact H|contradiction].
Qed.

(** X2: when the instance is not populated and one of the four addresses
    of the resolution answer is the empty string, the instance is still not
    populated after [ensureTokenAddresses], and the next call asks again. *)
Theorem ensureTokenAddresses_asks_again (this : BlockscoutAPI) :
  ~ populated this ->
  ContractAddresses.attestationsAddress getContractAddresses = EmptyString
  \/ ContractAddresses.escrowAddress getContractAddresses = EmptyString
  \/ ContractAddresses.goldTokenAddress getContractAddresses = EmptyString
  \/ ContractAddresses.stableTokenAddress getContractAddresses = EmptyString ->
  let once := ensureTokenAddresses this in
  snd once = [ResolveContractAddresses]
  /\ ~ populated (fst once)
  /\ ensureTokenAddresses (fst once) = (fst once, [ResolveContractAddresses]).
Proof.
  intros Hnot Hempty. cbv zeta.
  destruct (ensureTokenAddresses_cases this) as [[Hp _]|[_ Hcall]]; [contradiction|].
  assert (Hstill : ~ populated (fst (ensureTokenAddresses this))).
  { rewrite Hcall. cbn. unfold populated. cbn.
    intros (_ & (a & [= <-] & Ha) & (e & [= <-] & He) & (g & [= <-] & Hg)
            & (st & [= <-] & Hst)).
    destruct Hempty as [H|[H|[H|H]]]; congruence. }
  split; [now rewrite Hcall|]. split; [exact Hstill|].
  destruct (ensureTokenAddresses_cases (fst (ensureTokenAddresses this)))
    as [[Hp _]|[_ Hagain]]; [contradiction|].
  rewrite Hagain, Hcall. reflexivity.
Qed.

End RegistryCallsProofs.

Lemma ensureTokenAddresses_twice_witness :
  populated Demo.ready
  /\ @ensureTokenAddresses Demo.imports Demo.ready = (Demo.ready, []).
Proof.
  destruct (@ensureTokenAddresses_twice Demo.imports Demo.fresh)
    as (Hpop & _ & _ & Hagain); try (vm_compute; discriminate).
  split; [exact Hpop|exact Hagain].
Defined.

Lemma ensureTokenAddresses_asks_again_witness :
  snd (@ensureTokenAddresses Sample.noEscrow
         (fst (@ensureTokenAddresses Sample.noEscrow Demo.fresh)))
  = [ResolveContractAddresses].
Proof.
  destruct (@ensureTokenAddresses_asks_again Sample.noEscrow Demo.fresh)
    as (_ & _ & Hagain).
  - intros (Hm & _). destruct Hm as [m Hm]. discriminate Hm.
  - right. left. reflexivity.
  - rewrite Hagain. reflexivity.
Defined.

(** ** Lookups *)

Lemma lower_ascii_idempotent (c : ascii) :
  JS.lower_ascii (JS.lower_ascii c) = JS.lower_ascii c.
Proof.
  destruct c as [[] [] [] [] [] [] [] []]; reflexivity.
Qed.

Lemma toLowerCase_idempotent (s : string) :
  JS.toLowerCase (JS.toLowerCase s) = JS.toLowerCase s.
Proof.
  induction s as [|c s IH]; cbn; [reflexivity|].
  now rewrite lower_ascii_idempotent, IH.
Qed.

Section LookupProofs.
Context {imports : Imports}.

(** X3: after [ensureTokenAddresses], [getTokenAtAddress] never fails for
    want of the mapping: it returns the token stored under the lower-cased
    address, or throws the message that names the lower-cased address.  The
    key it reads is always in lower case, so a token stored under a key
    with an upper-case letter is never returned for it. *)
Theorem getTokenAtAddress_after_ensure (this : BlockscoutAPI) (tokenAddress : string) :
  let ready := fst (ensureTokenAddresses this) in
  let key := JS.toLowerCase tokenAddress in
  JS.toLowerCase key = key
  /\ exists mapping,
      tokenAddressMapping ready = Some mapping
      /\ match getTokenAtAddress ready tokenAddress with
         | Ok token => mapping !! key = Some token
         | Throw msg =>
             mapping !! key = None
             /\ msg = "No token corresponding to " ++ key
                      ++ ". Check web3 provider is for correct network."
         end.
Proof.
  cbv zeta. split; [apply toLowerCase_idempotent|].
  assert (Hm : is_Some (tokenAddressMapping (fst (ensureTokenAddresses this)))).
  { destruct (ensureTokenAddresses_cases this) as [[Hp ->]|[_ ->]]; cbn.
    - apply Hp.
    - eexists. reflexivity. }
  destruct Hm as [mapping Hm]. exists mapping. split; [exact Hm|].
  unfold getTokenAtAddress. rewrite Hm.
  destruct (mapping !! JS.toLowerCase tokenAddress); auto.
Qed.

End LookupProofs.

(** ** The groups of a list of rows *)

Section GroupShapeProofs.

Lemma Map_get_set {V} (k : string) (v : V) (m : JS.Map V) (h : string) :
  JS.Map_get h (JS.Map_set k v m) = if k =? h then Some v else JS.Map_get h m.
Proof.
  induction m as [|[k' v'] m IH]; cbn; [reflexivity|].
  destruct (String.eqb k' k) eqn:E; cbn.
  - apply eqb_true in E. subst k'. destruct (k =? h); reflexivity.
  - rewrite IH. destruct (k' =? h) eqn:E1, (k =? h) eqn:E2; try reflexivity.
    apply eqb_true in E1, E2. apply eqb_false in E. congruence.
Qed.

Lemma Map_set_keys {V} (k : string) (v : V) (m : JS.Map V) :
  map fst (JS.Map_set k v m)
  = if existsb (String.eqb k) (map fst m) then map fst m else (map fst m ++ [k])%list.
Proof.
  induction m as [|[k' v'] m IH]; cbn; [reflexivity|].
  rewrite (String.eqb_sym k k'). destruct (k' =? k); cbn; [reflexivity|].
  rewrite IH. destruct (existsb _ _); reflexivity.
Qed.

Lemma fold_groupStep_get (raw : list BlockscoutTransaction)
  (acc : JS.Map (list BlockscoutTransaction)) (h : string) :
  JS.Map_get h (fold_left groupStep raw acc)
  = match rowsOf h raw with
    | [] => JS.Map_get h acc
    | g => Some (default [] (JS.Map_get h acc) ++ g)%list
    end.
Proof.
  revert acc. induction raw as [|tx raw IH]; intros acc; [reflexivity|].
  cbn [fold_left]. rewrite IH. unfold groupStep at 1 2. rewrite Map_get_set.
  unfold rowsOf. cbn [List.filter]. fold (rowsOf h raw).
  destruct (hash tx =? h) eqn:E.
  - apply eqb_true in E. subst h. cbn [default].
    destruct (rowsOf (hash tx) raw); [reflexivity|].
    unfold id. now rewrite <- app_assoc.
  - reflexivity.
Qed.

Lemma filter_filter_impl {A} (p q : A -> bool) (l : list A) :
  (forall x, p x = true -> q x = true) ->
  List.filter p (List.filter q l) = List.filter p l.
Proof.
  intros Hpq. induction l as [|x l IH]; cbn; [reflexivity|].
  destruct (q x) eqn:Hq; cbn; rewrite IH; [reflexivity|].
  destruct (p x) eqn:Hp; [|reflexivity].
  rewrite (Hpq x Hp) in Hq. discriminate.
Qed.

Lemma filter_filter_and {A} (p q : A -> bool) (l : list A) :
  List.filter p (List.filter q l) = List.filter (fun x => q x && p x) l.
Proof.
  induction l as [|x l IH]; cbn; [reflexivity|].
  destruct (q x); cbn; rewrite IH; reflexivity.
Qed.

Lemma fold_groupStep_keys (raw : list BlockscoutTransaction)
  (acc : JS.Map (list BlockscoutTransaction)) :
  map fst (fold_left groupStep raw acc)
  = (map fst acc
     ++ List.filter (fun h => negb (existsb (String.eqb h) (map fst acc)))
          (firstSeen (map hash raw)))%list.
Proof.
  revert acc. induction raw as [|tx raw IH]; intros acc; cbn [fold_left map firstSeen].
  - cbn. now rewrite app_nil_r.
  - rewrite IH. unfold groupStep. rewrite Map_set_keys. cbn [List.filter].
    destruct (existsb (String.eqb (hash tx)) (map fst acc)) eqn:E; cbn [negb].
    + f_equal. symmetry. apply filter_filter_impl.
      intros x Hx. apply negb_true_iff. apply negb_true_iff in Hx.
      destruct (x =? hash tx) eqn:Ex; [|reflexivity].
      apply eqb_true in Ex. subst x. congruence.
    + rewrite <- app_assoc. cbn [app]. do 2 f_equal.
      rewrite filter_filter_and. apply filter_ext. intros x.
      rewrite existsb_app. cbn [existsb]. rewrite orb_false_r, negb_orb.
      apply andb_comm.
Qed.

Lemma firstSeen_In (hashes : list string) (h : string) :
  In h (firstSeen hashes) <-> In h hashes.
Proof.
  induction hashes as [|k rest IH]; cbn; [tauto|].
  rewrite filter_In, IH, negb_true_iff, eqb_false.
  destruct (String.string_dec k h) as [->|Hne]; [tauto|].
  split; [tauto|]. intros [H|H]; [contradiction|]. right. split; [exact H|congruence].
Qed.

Lemma firstSeen_NoDup (hashes : list string) : NoDup (firstSeen hashes).
Proof.
  induction hashes as [|k rest IH]; cbn; constructor.
  - rewrite list_elem_of_In, filter_In, negb_true_iff, eqb_false. tauto.
  - apply NoDup_ListNoDup, List.NoDup_filter, NoDup_ListNoDup, IH.
Qed.

Lemma Map_get_of_In {V} (k : string) (v : V) (m : JS.Map V) :
  NoDup (map fst m) -> In (k, v) m -> JS.Map_get k m = Some v.
Proof.
  induction m as [|[k' v'] m IH]; cbn; [tauto|].
  intros Hnd Hin. apply NoDup_cons in Hnd as [Hk' Hnd].
  destruct Hin as [[= -> ->]|Hin].
  - now rewrite String.eqb_refl.
  - destruct (k' =? k) eqn:E; [|now apply IH].
    apply eqb_true in E. subst k'. exfalso. apply Hk'.
    apply list_elem_of_In, in_map_iff. exists (k, v). split; [reflexivity|exact Hin].
Qed.

Lemma groupByHash_keys (raw : list BlockscoutTransaction) :
  map fst (groupByHash raw) = firstSeen (map hash raw).
Proof.
  unfold groupByHash. rewrite fold_groupStep_keys. cbn.
  induction (firstSeen (map hash raw)) as [|k l IH]; cbn; [reflexivity|].
  now rewrite IH.
Qed.

Lemma groupByHash_shape (rawTransactions : list BlockscoutTransaction) :
  groupByHash rawTransactions
  = map (fun h => (h, rowsOf h rawTransactions))
      (firstSeen (map hash rawTransactions)).
Proof.
  rewrite <- groupByHash_keys.
  assert (Hnd : NoDup (map fst (groupByHash rawTransactions))).
  { rewrite groupByHash_keys. apply firstSeen_NoDup. }
  assert (Hall : forall kg, In kg (groupByHash rawTransactions) ->
                            snd kg = rowsOf (fst kg) rawTransactions).
  { intros [k g] Hin. cbn.
    pose proof (Map_get_of_In k g _ Hnd Hin) as Hget.
    unfold groupByHash in Hget. rewrite fold_groupStep_get in Hget. cbn in Hget.
    destruct (rowsOf k rawTransactions); congruence. }
  induction (groupByHash rawTransactions) as [|[k g] m IH]; cbn; [reflexivity|].
  pose proof (Hall (k, g) (or_introl eq_refl)) as Hg. cbn in Hg.
  f_equal; [now rewrite Hg|].
  apply IH.
  - now apply NoDup_cons in Hnd.
  - intros kg Hkg. apply Hall. now right.
Qed.

(** X4: the groups are the distinct hashes of the input in the order in
    which they first appear, each with the rows of that hash in the order
    of the input. *)
Theorem groupByHash_spec (rawTransactions : list BlockscoutTransaction) :
  groupByHash rawTransactions
  = map (fun h => (h, rowsOf h rawTransactions))
      (firstSeen (map hash rawTransactions)).
Proof.
  rewrite <- groupByHash_keys.
  assert (Hnd : NoDup (map fst (groupByHash rawTransactions))).
  { rewrite groupByHash_keys. apply firstSeen_NoDup. }
  assert (Hall : forall kg, In kg (groupByHash rawTransactions) ->
                            snd kg = rowsOf (fst kg) rawTransactions).
  { intros [k g] Hin. cbn.
    pose proof (Map_get_of_In k g _ Hnd Hin) as Hget.
    unfold groupByHash in Hget. rewrite fold_groupStep_get in Hget. cbn in Hget.
    destruct (rowsOf k rawTransactions); congruence. }
  induction (groupByHash rawTransactions) as [|[k g] m IH]; cbn; [reflexivity|].
  pose proof (Hall (k, g) (or_introl eq_refl)) as Hg. cbn in Hg.
  f_equal; [now rewrite Hg|].
  apply IH.
  - now apply NoDup_cons in Hnd.
  - intros kg Hkg. apply Hall. now right.
Qed.

Lemma groupStep_concat (acc : JS.Map (list BlockscoutTransaction))
  (tx : BlockscoutTransaction) :
  Permutation (concat (map snd (groupStep acc tx))) (tx :: concat (map snd acc)).
Proof.
  unfold groupStep. induction acc as [|[k' g'] acc IH]; cbn.
  - reflexivity.
  - destruct (k' =? hash tx); cbn.
    + rewrite <- app_assoc. cbn.
      rewrite <- Permutation_middle. reflexivity.
    + rewrite IH. rewrite <- Permutation_middle. reflexivity.
Qed.

Lemma fold_groupStep_concat (raw : list BlockscoutTransaction)
  (acc : JS.Map (list BlockscoutTransaction)) :
  Permutation (concat (map snd (fold_left groupStep raw acc)))
    (concat (map snd acc) ++ raw).
Proof.
  revert acc. induction raw as [|tx raw IH]; intros acc; cbn [fold_left].
  - now rewrite app_nil_r.
  - rewrite IH, groupStep_concat. cbn. rewrite <- Permutation_middle. reflexivity.
Qed.

(** X5: grouping loses and invents nothing: no hash heads two groups, no
    group is empty, every row of a group has the hash of the group, and the
    groups together hold the rows of the input, each as often as it was
    sent. *)
Theorem groupByHash_partition (rawTransactions : list BlockscoutTransaction) :
  NoDup (map fst (groupByHash rawTransactions))
  /\ Forall (fun kg => snd kg <> [] /\ Forall (fun tx => hash tx = fst kg) (snd kg))
       (groupByHash rawTransactions)
  /\ Permutation (concat (map snd (groupByHash rawTransactions))) rawTransactions.
Proof.
  split; [rewrite groupByHash_keys; apply firstSeen_NoDup|]. split.
  - rewrite groupByHash_shape. apply List.Forall_forall. intros kg Hkg.
    apply in_map_iff in Hkg as (h & <- & Hh). cbn.
    apply firstSeen_In, in_map_iff in Hh as (tx & Htx & Hin). split.
    + intros Hnil.
      assert (Hmem : In tx (rowsOf h rawTransactions)).
      { apply filter_In. split; [exact Hin|]. now apply eqb_true. }
      rewrite Hnil in Hmem. contradiction.
    + apply List.Forall_forall. intros row Hrow.
      apply filter_In in Hrow as [_ Hrow]. now apply eqb_true.
  - apply (fold_groupStep_concat rawTransactions []).
Qed.

End GroupShapeProofs.

(** ** Direction of a transfer *)

Section DirectionProofs.
Context {imports : Imports}.

Lemma resolve_direction (userAddress eventToAddress eventFromAddress
  attestationsAddress escrowAddress : string) (type : EventTypes) (address : string) :
  resolveTransferEventType userAddress eventToAddress eventFromAddress
    attestationsAddress escrowAddress = Ok (type, address) ->
  (incoming type = true /\ eventToAddress = userAddress /\ address = eventFromAddress)
  \/ (outgoing type = true /\ eventFromAddress = userAddress
      /\ address = eventToAddress).
Proof.
  unfold resolveTransferEventType.
  string_cases; cbn; intros [= <- <-]; subst; cbn; auto.
Qed.

Lemma resolve_involved (userAddress eventToAddress eventFromAddress
  attestationsAddress escrowAddress : string) :
  eventToAddress = userAddress \/ eventFromAddress = userAddress ->
  exists outcome,
    resolveTransferEventType userAddress eventToAddress eventFromAddress
      attestationsAddress escrowAddress = Ok outcome.
Proof.
  unfold resolveTransferEventType.
  intros H. string_cases; cbn; eauto; exfalso; tauto.
Qed.

(** X6: whatever [resolveTransferEventType] returns, the address it
    returns is the other end of the transfer: for the types of money coming
    in (FAUCET, VERIFICATION_REWARD, ESCROW_RECEIVED, RECEIVED) the viewer is
    the receiver and the address is the sender; for the types of money going
    out (VERIFICATION_FEE, ESCROW_SENT, SENT) the viewer is the sender and
    the address is the receiver.  It never returns EXCHANGE. *)
Theorem resolveTransferEventType_counterparty
  (userAddress eventToAddress eventFromAddress attestationsAddress escrowAddress
     : string) (type : EventTypes) (address : string) :
  resolveTransferEventType userAddress eventToAddress eventFromAddress
    attestationsAddress escrowAddress = Ok (type, address) ->
  type <> EXCHANGE
  /\ ((incoming type = true /\ eventToAddress = userAddress
       /\ address = eventFromAddress)
      \/ (outgoing type = true /\ eventFromAddress = userAddress
          /\ address = eventToAddress)).
Proof.
  intros H. apply resolve_direction in H. split; [|exact H].
  intros ->. cbn in H. destruct H as [[H _]|[H _]]; discriminate.
Qed.

End DirectionProofs.

Lemma resolveTransferEventType_counterparty_witness :
  @resolveTransferEventType Demo.imports "0xaaa" "0xaaa" "0xfa0ce7"
    Demo.attestations Demo.escrow = Ok (FAUCET, "0xfa0ce7")
  /\ FAUCET <> EXCHANGE.
Proof.
  assert (H : @resolveTransferEventType Demo.imports "0xaaa" "0xaaa" "0xfa0ce7"
                Demo.attestations Demo.escrow = Ok (FAUCET, "0xfa0ce7"))
    by reflexivity.
  split; [exact H|].
  apply (@resolveTransferEventType_counterparty Demo.imports _ _ _ _ _ _ _ H).
Defined.

(** ** Events and groups *)

Section EventsOfGroupsProofs.
Context {imports : Imports}.

Lemma forEach_push_hashes {V E} (callback : V -> string -> result (option E))
  (hashOf : E -> string) (m : JS.Map V) (events : list E) :
  (forall v k e, callback v k = Ok (Some e) -> hashOf e = k) ->
  forEach_push callback m = Ok events ->
  map hashOf events `sublist_of` map fst m
  /\ ((forall v k, callback v k <> Ok None) -> map hashOf events = map fst m).
Proof.
  intros Hhash. revert events.
  induction m as [|[k v] m IH]; cbn; intros events.
  - intros [= <-]. split; [constructor|reflexivity].
  - destruct (callback v k) as [pushed|] eqn:Hcb; cbn; [|discriminate].
    destruct (forEach_push callback m) as [rest|]; cbn; [|discriminate].
    destruct (IH rest eq_refl) as [Hsub Hall].
    intros [= <-]. destruct pushed as [e|]; cbn.
    + rewrite (Hhash v k e Hcb). split; [now constructor|].
      intros Hnever. now rewrite Hall.
    + split; [now constructor|]. intros Hnever. now destruct (Hnever v k).
Qed.

(** The first callback that throws ends the loop with its error. *)
Lemma forEach_push_Throw {V E} (callback : V -> string -> result (option E))
  (m : JS.Map V) (msg : string) :
  forEach_push callback m = Throw msg
  <-> exists before k v after,
      m = (before ++ (k, v) :: after)%list
      /\ Forall (fun kv => exists pushed, callback (snd kv) (fst kv) = Ok pushed) before
      /\ callback v k = Throw msg.
Proof.
  induction m as [|[k v] m IH]; cbn.
  - split; [discriminate|]. intros (before & k & v & after & H & _).
    now destruct before.
  - split.
    + intros H. destruct (callback v k) as [pushed|msg'] eqn:Hcb; cbn in H.
      * destruct (forEach_push callback m) as [rest|msg'] eqn:Hrest; cbn in H;
          [discriminate|].
        injection H as ->.
        destruct (proj1 IH eq_refl) as (before & k0 & v0 & after & -> & Hbefore & Hthrow).
        exists ((k, v) :: before), k0, v0, after.
        split; [reflexivity|]. split; [|exact Hthrow].
        constructor; [cbn; eauto|exact Hbefore].
      * injection H as ->. exists [], k, v, m. auto.
    + intros (before & k0 & v0 & after & Hm & Hbefore & Hthrow).
      destruct before as [|kv before]; cbn in Hm.
      * injection Hm as ? ? ?; subst. now rewrite Hthrow.
      * injection Hm as ? ?; subst.
        apply Forall_cons_1 in Hbefore as [[p Hp] Hbefore]. cbn in Hp.
        rewrite Hp. cbn.
        assert (Hrest : forEach_push callback (before ++ (k0, v0) :: after)%list
                        = Throw msg) by (apply IH; eauto 8).
        now rewrite Hrest.
Qed.

Lemma feedEventOfGroup_hash this userAddress transactions txhash :
  match feedEventOfGroup this userAddress transactions txhash with
  | Ok (Some e) => event_hash e = txhash
  | Ok None => False
  | Throw _ => True
  end.
Proof.
  unfold feedEventOfGroup.
  destruct transactions as [|t0 [|t1 [|t2 rest]]]; [exact I| | |].
  2:{ destruct (exchangeLegs userAddress t0 t1) as [inEvent outEvent].
      repeat (destruct (getTokenAtAddress _ _); cbn; [|exact I]). reflexivity. }
  all: destruct (getAttestationAddress this); cbn; [|exact I];
    destruct (getEscrowAddress this); cbn; [|exact I];
    destruct (resolveTransferEventType _ _ _ _ _) as [[type address]|]; cbn; [|exact I];
    destruct (getTokenAtAddress _ _); cbn; [reflexivity|exact I].
Qed.

Lemma tokenEventOfGroup_hash this userAddress token transactions txhash e :
  tokenEventOfGroup this userAddress token transactions txhash = Ok (Some e) ->
  token_event_hash e = txhash.
Proof.
  assert (Hother :
    match pickTransfer (stableTokenTxsOf this transactions) with
    | Some event =>
        let* e := tokenTransferEvent this userAddress event txhash in Ok (Some e)
    | None => Ok None
    end = Ok (Some e) -> token_event_hash e = txhash).
  { destruct (pickTransfer _) as [event|]; [|discriminate].
    unfold tokenTransferEvent.
    destruct (getAttestationAddress this); cbn; [|discriminate].
    destruct (getEscrowAddress this); cbn; [|discriminate].
    destruct (resolveTransferEventType _ _ _ _ _) as [[type address]|]; cbn;
      [|discriminate].
    now intros [= <-]. }
  unfold tokenEventOfGroup.
  destruct transactions as [|t0 [|t1 [|t2 rest]]]; try exact Hother.
  destruct (exchangeLegs userAddress t0 t1) as [inEvent outEvent].
  destruct (JS.find_from _ _ _) as [[i tokenEvent]|]; [|discriminate].
  now intros [= <-].
Qed.

(** X7: a feed fails exactly when the classification of some group
    fails while that of every group before it, in the order in which the
    hashes first appear, succeeds; the feed then fails with the error of
    that group. *)
Theorem feeds_fail_at_first_group (this : BlockscoutAPI) (address token msg : string)
  (rawTransactions : list BlockscoutTransaction) :
  let ready := fst (ensureTokenAddresses this) in
  let userAddress := JS.toLowerCase address in
  let firstFailure {E} (callback : _ -> string -> result (option E)) :=
    exists before h after,
      firstSeen (map hash rawTransactions) = (before ++ h :: after)%list
      /\ Forall (fun k => exists pushed,
                     callback (rowsOf k rawTransactions) k = Ok pushed) before
      /\ callback (rowsOf h rawTransactions) h = Throw msg in
  (fst (getFeedEvents this address rawTransactions) = Throw msg
   <-> firstFailure (feedEventOfGroup ready userAddress))
  /\ (fst (getTokenTransactions this address token rawTransactions) = Throw msg
      <-> firstFailure (tokenEventOfGroup ready userAddress token)).
Proof.
  cbv zeta.
  assert (Hgen : forall E (callback : _ -> string -> result (option E)),
    forEach_push callback (groupByHash rawTransactions) = Throw msg
    <-> exists before h after,
        firstSeen (map hash rawTransactions) = (before ++ h :: after)%list
        /\ Forall (fun k => exists pushed,
                       callback (rowsOf k rawTransactions) k = Ok pushed) before
        /\ callback (rowsOf h rawTransactions) h = Throw msg).
  { intros E callback. rewrite forEach_push_Throw, groupByHash_shape.
    set (pair := fun h => (h, rowsOf h rawTransactions)).
    split.
    - intros (before & k & v & after & Hm & Hbefore & Hthrow).
      apply map_eq_app in Hm as (kb & rest & Hkeys & <- & Hrest).
      apply map_eq_cons in Hrest as (h & ka & -> & [= <- <-] & <-).
      exists kb, h, ka. split; [exact Hkeys|]. split; [|exact Hthrow].
      rewrite List.Forall_forall in Hbefore. apply List.Forall_forall.
      intros k Hk. apply (Hbefore (pair k)). now apply in_map.
    - intros (before & h & after & Hkeys & Hbefore & Hthrow).
      exists (map pair before), h, (rowsOf h rawTransactions), (map pair after).
      split; [now rewrite Hkeys, map_app|]. split; [|exact Hthrow].
      rewrite List.Forall_forall in Hbefore. apply List.Forall_forall.
      intros kv Hkv. apply in_map_iff in Hkv as (k & <- & Hk). now apply Hbefore. }
  unfold getFeedEvents, getTokenTransactions, feedEventsPushed, tokenEventsPushed.
  cbn [fst]. split.
  - rewrite <- Hgen. destruct (forEach_push _ _); cbn; split; congruence.
  - rewrite <- Hgen. destruct (forEach_push _ _); cbn; split; congruence.
Qed.

(** X8: when [getFeedEvents] returns, it returns exactly one event for
    each distinct hash of the input, whatever the number of rows of that
    hash: the hashes of the events pushed are the hashes of the input in
    the order of first appearance. *)
Theorem getFeedEvents_one_event_per_hash (this : BlockscoutAPI) (address : string)
  (rawTransactions : list BlockscoutTransaction) (out : list EventInterface) :
  fst (getFeedEvents this address rawTransactions) = Ok out ->
  Permutation (map event_hash out) (firstSeen (map hash rawTransactions))
  /\ length out = length (firstSeen (map hash rawTransactions))
  /\ exists pushed,
      feedEventsPushed (fst (ensureTokenAddresses this)) (JS.toLowerCase address)
        rawTransactions = Ok pushed
      /\ map event_hash pushed = firstSeen (map hash rawTransactions).
Proof.
  unfold getFeedEvents. cbn [fst].
  destruct (feedEventsPushed _ _ _) as [pushed|] eqn:Hpushed; cbn; [|discriminate].
  intros [= <-].
  assert (Hhashes : map event_hash pushed = firstSeen (map hash rawTransactions)).
  { rewrite <- groupByHash_keys.
    refine (proj2 (forEach_push_hashes _ event_hash _ _ _ Hpushed) _).
    - intros g k e He.
      pose proof (feedEventOfGroup_hash (fst (ensureTokenAddresses this))
                    (JS.toLowerCase address) g k) as H.
      now rewrite He in H.
    - intros g k He.
      pose proof (feedEventOfGroup_hash (fst (ensureTokenAddresses this))
                    (JS.toLowerCase address) g k) as H.
      now rewrite He in H. }
  assert (Hperm : Permutation (map event_hash (JS.sort (byTimestampDesc event_timestamp)
                                                  pushed))
                    (firstSeen (map hash rawTransactions))).
  { rewrite <- Hhashes. apply Permutation_map, sort_Permutation. }
  split; [exact Hperm|]. split.
  - apply Permutation_length in Hperm. now rewrite length_map in Hperm.
  - eauto.
Qed.

(** X9: when [getTokenTransactions] returns, every event it returns is
    in the currency asked for, no two of them have the same hash, each
    carries a hash of the input, and there are at most as many as distinct
    hashes. *)
Theorem getTokenTransactions_events_of_token (this : BlockscoutAPI)
  (address token : string) (rawTransactions : list BlockscoutTransaction)
  (out : list TokenEvent) :
  fst (getTokenTransactions this address token rawTransactions) = Ok out ->
  Forall (fun e => MoneyAmount.currencyCode (token_event_amount e) = token) out
  /\ NoDup (map token_event_hash out)
  /\ (forall e, In e out -> In (token_event_hash e) (map hash rawTransactions))
  /\ length out <= length (firstSeen (map hash rawTransactions)).
Proof.
  unfold getTokenTransactions. cbn [fst].
  destruct (tokenEventsPushed _ _ _ _) as [pushed|] eqn:Hpushed; cbn; [|discriminate].
  intros [= <-].
  set (kept := List.filter _ pushed).
  assert (Hsub : map token_event_hash kept `sublist_of` firstSeen (map hash rawTransactions)).
  { rewrite <- groupByHash_keys.
    transitivity (map token_event_hash pushed).
    - subst kept. clear Hpushed. induction pushed as [|e pushed IH]; cbn; [constructor|].
      destruct (_ =? _); cbn; now constructor.
    - refine (proj1 (forEach_push_hashes _ token_event_hash _ _ _ Hpushed)).
      intros g k e. apply tokenEventOfGroup_hash. }
  assert (Hperm : Permutation (JS.sort (byTimestampDesc token_event_timestamp) kept) kept)
    by apply sort_Permutation.
  split; [|split; [|split]].
  - eapply Permutation_Forall; [symmetry; exact Hperm|].
    apply List.Forall_forall. intros e He. subst kept.
    apply filter_In in He as [_ He]. now apply eqb_true.
  - rewrite (Permutation_map token_event_hash Hperm).
    eapply sublist_NoDup; [apply firstSeen_NoDup|exact Hsub].
  - intros e He. apply (Permutation_in _ Hperm) in He.
    apply firstSeen_In, list_elem_of_In.
    eapply elem_of_sublist; [|exact Hsub].
    apply list_elem_of_In, in_map. exact He.
  - rewrite (Permutation_length Hperm), <- (length_map token_event_hash kept).
    now apply sublist_length.
Qed.

End EventsOfGroupsProofs.

Lemma getFeedEvents_one_event_per_hash_witness :
  exists out,
    fst (@getFeedEvents Demo.imports Demo.fresh Sample.viewer
           (Sample.ties ++ Sample.feePaid)) = Ok out
    /\ length out = 4.
Proof.
  destruct (fst (@getFeedEvents Demo.imports Demo.fresh Sample.viewer
                   (Sample.ties ++ Sample.feePaid))) as [out|] eqn:Hout;
    [|vm_compute in Hout; discriminate].
  exists out. split; [reflexivity|].
  destruct (@getFeedEvents_one_event_per_hash Demo.imports Demo.fresh Sample.viewer
              (Sample.ties ++ Sample.feePaid) out Hout) as (_ & Hlen & _).
  rewrite Hlen. reflexivity.
Defined.

Lemma getTokenTransactions_events_of_token_witness :
  exists out,
    fst (@getTokenTransactions Demo.imports Demo.fresh Sample.viewer "cUSD"
           (Sample.goldOnly :: Sample.ties)) = Ok out
    /\ Forall (fun e => MoneyAmount.currencyCode (token_event_amount e) = "cUSD") out
    /\ length out = 3.
Proof.
  destruct (fst (@getTokenTransactions Demo.imports Demo.fresh Sample.viewer "cUSD"
                   (Sample.goldOnly :: Sample.ties))) as [out|] eqn:Hout;
    [|vm_compute in Hout; discriminate].
  exists out. split; [reflexivity|].
  destruct (@getTokenTransactions_events_of_token Demo.imports Demo.fresh Sample.viewer
              "cUSD" (Sample.goldOnly :: Sample.ties) out Hout) as (Hall & _).
  split; [exact Hall|].
  vm_compute in Hout. injection Hout as <-. reflexivity.
Defined.

(** ** The rewards feed *)

Section RewardsProofs.
Context {imports : Imports}.

Lemma rewardsPushed_content this rawTransactions rewards :
  rewardsPushed this rawTransactions = Ok rewards ->
  map TransferEvent.hash rewards
  = map hash
      (List.filter
         (fun t => JS.toLowerCase (from t) =? VERIFICATION_REWARDS_ADDRESS)
         rawTransactions)
  /\ Forall (fun e => TransferEvent.type e = VERIFICATION_REWARD
                      /\ TransferEvent.address e = VERIFICATION_REWARDS_ADDRESS)
       rewards.
Proof.
  revert rewards. induction rawTransactions as [|t rest IH]; cbn; intros rewards.
  - intros [= <-]. split; [reflexivity|constructor].
  - destruct (JS.toLowerCase (from t) =? VERIFICATION_REWARDS_ADDRESS); cbn.
    + destruct (getTokenAtAddress this (contractAddress t)); cbn; [|discriminate].
      destruct (rewardsPushed this rest) as [pushed|]; cbn; [|discriminate].
      intros [= <-]. destruct (IH pushed eq_refl) as [Hhash Hall].
      split; [cbn; now rewrite Hhash|]. constructor; [cbn; auto|exact Hall].
    + apply IH.
Qed.

Lemma rewardsPushed_returns this rawTransactions :
  (exists rewards, rewardsPushed this rawTransactions = Ok rewards)
  <-> Forall (fun t => exists token, getTokenAtAddress this (contractAddress t) = Ok token)
        (List.filter
           (fun t => JS.toLowerCase (from t) =? VERIFICATION_REWARDS_ADDRESS)
           rawTransactions).
Proof.
  induction rawTransactions as [|t rest IH]; cbn.
  - split; [constructor|eauto].
  - destruct (JS.toLowerCase (from t) =? VERIFICATION_REWARDS_ADDRESS); cbn;
      [|exact IH].
    destruct (getTokenAtAddress this (contractAddress t)) as [token|msg] eqn:Htoken;
      cbn.
    + split.
      * intros [rewards H]. constructor; [eauto|]. apply (proj1 IH).
        destruct (rewardsPushed this rest); cbn in H; [eauto|discriminate].
      * intros H. apply Forall_cons_1 in H as [_ H].
        apply (proj2 IH) in H as [rewards ->]. cbn. eauto.
    + split.
      * intros [rewards H]. discriminate.
      * intros H. apply Forall_cons_1 in H as [[token H] _]. congruence.
Qed.

(** X10: when [getFeedRewards] returns, its events are, up to order, one
    for each row sent by the verification-rewards address and none for any
    other row; each has type VERIFICATION_REWARD, the rewards address as
    its address and the hash of its row.  Rows of one hash are not
    merged. *)
Theorem getFeedRewards_content (this : BlockscoutAPI)
  (rawTransactions : list BlockscoutTransaction) (out : list TransferEvent.t) :
  fst (getFeedRewards this rawTransactions) = Ok out ->
  Permutation (map TransferEvent.hash out)
    (map hash
       (List.filter
          (fun t => JS.toLowerCase (from t) =? VERIFICATION_REWARDS_ADDRESS)
          rawTransactions))
  /\ Forall (fun e => TransferEvent.type e = VERIFICATION_REWARD
                      /\ TransferEvent.address e = VERIFICATION_REWARDS_ADDRESS)
       out.
Proof.
  unfold getFeedRewards. cbn [fst].
  destruct (rewardsPushed _ _) as [pushed|] eqn:Hpushed; cbn; [|discriminate].
  intros [= <-]. apply rewardsPushed_content in Hpushed as [Hhash Hall].
  split.
  - rewrite <- Hhash. apply Permutation_map, sort_Permutation.
  - eapply Permutation_Forall; [symmetry; apply sort_Permutation|exact Hall].
Qed.

(** X11: [getFeedRewards] returns exactly when the token of every row
    sent by the verification-rewards address is found in the registry; a
    row of any other sender never makes it fail, whatever its contract
    address. *)
Theorem getFeedRewards_returns_iff (this : BlockscoutAPI)
  (rawTransactions : list BlockscoutTransaction) :
  (exists out, fst (getFeedRewards this rawTransactions) = Ok out)
  <-> Forall (fun t => exists token,
                  getTokenAtAddress (fst (ensureTokenAddresses this))
                    (contractAddress t) = Ok token)
        (List.filter
           (fun t => JS.toLowerCase (from t) =? VERIFICATION_REWARDS_ADDRESS)
           rawTransactions).
Proof.
  rewrite <- rewardsPushed_returns. unfold getFeedRewards. cbn [fst].
  destruct (rewardsPushed _ _) as [pushed|]; cbn; split; eauto.
Qed.

End RewardsProofs.

Lemma getFeedRewards_content_witness :
  exists e,
    fst (@getFeedRewards Demo.imports Demo.fresh
           [Sample.unknownToken; Sample.reward; Sample.sent]) = Ok [e]
    /\ TransferEvent.type e = VERIFICATION_REWARD
    /\ TransferEvent.address e = "0xb0a7".
Proof.
  destruct (fst (@getFeedRewards Demo.imports Demo.fresh
                   [Sample.unknownToken; Sample.reward; Sample.sent]))
    as [out|] eqn:Hout; [|vm_compute in Hout; discriminate].
  destruct (@getFeedRewards_content Demo.imports Demo.fresh
              [Sample.unknownToken; Sample.reward; Sample.sent] out Hout)
    as [_ Hall].
  vm_compute in Hout. injection Hout as <-.
  eexists. split; [reflexivity|].
  apply Forall_cons_1 in Hall as [[Htype Haddress] _]. split; assumption.
Defined.

(** ** Transfers and the viewer *)

Section TransferProofs.
Context {imports : Imports}.

Lemma feedEventOfGroup_transfer this userAddress transactions txhash e :
  feedEventOfGroup this userAddress transactions txhash = Ok (Some (Transfer e)) ->
  exists row,
    In row transactions
    /\ TransferEvent.hash e = txhash
    /\ ((incoming (TransferEvent.type e) = true
         /\ JS.toLowerCase (to row) = userAddress
         /\ TransferEvent.address e = JS.toLowerCase (from row))
        \/ (outgoing (TransferEvent.type e) = true
            /\ JS.toLowerCase (from row) = userAddress
            /\ TransferEvent.address e = JS.toLowerCase (to row))).
Proof.
  unfold feedEventOfGroup.
  destruct transactions as [|t0 [|t1 [|t2 rest]]]; [discriminate| | |].
  2:{ destruct (exchangeLegs userAddress t0 t1) as [inEvent outEvent].
      repeat (destruct (getTokenAtAddress _ _); cbn; [|discriminate]). discriminate. }
  all: destruct (getAttestationAddress this); cbn; [|discriminate];
    destruct (getEscrowAddress this); cbn; [|discriminate];
    destruct (resolveTransferEventType _ _ _ _ _) as [[type address]|] eqn:Hres; cbn;
      [|discriminate];
    destruct (getTokenAtAddress _ _); cbn; [|discriminate];
    intros [= <-]; cbn; apply resolve_direction in Hres;
    exists t0; split; [now left|]; split; [reflexivity|exact Hres].
Qed.

Lemma tokenTransferEvent_direction this userAddress event txhash e :
  tokenTransferEvent this userAddress event txhash = Ok e ->
  exists x,
    e = TTransfer x
    /\ MoneyAmount.currencyCode (TokenTransfer.amount x) = tokenSymbol event
    /\ MoneyAmount.value (TokenTransfer.amount x)
       = signedGold (value event) (JS.toLowerCase (from event) =? userAddress)
    /\ ((incoming (TokenTransfer.type x) = true
         /\ JS.toLowerCase (to event) = userAddress
         /\ TokenTransfer.address x = JS.toLowerCase (from event))
        \/ (outgoing (TokenTransfer.type x) = true
            /\ JS.toLowerCase (from event) = userAddress
            /\ TokenTransfer.address x = JS.toLowerCase (to event))).
Proof.
  unfold tokenTransferEvent.
  destruct (getAttestationAddress this); cbn; [|discriminate].
  destruct (getEscrowAddress this); cbn; [|discriminate].
  destruct (resolveTransferEventType _ _ _ _ _) as [[type address]|] eqn:Hres; cbn;
    [|discriminate].
  intros [= <-]. eexists. split; [reflexivity|]. cbn.
  apply resolve_direction in Hres. auto.
Qed.

Lemma tokenEventOfGroup_transfer this userAddress token transactions txhash x :
  tokenEventOfGroup this userAddress token transactions txhash
  = Ok (Some (TTransfer x)) ->
  exists row,
    In row transactions
    /\ isStableTokenTx this row = true
    /\ tokenTransferEvent this userAddress row txhash = Ok (TTransfer x).
Proof.
  assert (Hother :
    match pickTransfer (stableTokenTxsOf this transactions) with
    | Some event =>
        let* e := tokenTransferEvent this userAddress event txhash in Ok (Some e)
    | None => Ok None
    end = Ok (Some (TTransfer x)) ->
    exists row,
      In row transactions
      /\ isStableTokenTx this row = true
      /\ tokenTransferEvent this userAddress row txhash = Ok (TTransfer x)).
  { destruct (pickTransfer _) as [event|] eqn:Hpick; [|discriminate].
    destruct (tokenTransferEvent this userAddress event txhash) as [e|] eqn:He; cbn;
      [|discriminate].
    intros [= ->]. exists event.
    apply pickTransfer_In in Hpick. unfold stableTokenTxsOf in Hpick.
    apply sort_In, filter_In in Hpick. tauto. }
  unfold tokenEventOfGroup.
  destruct transactions as [|t0 [|t1 [|t2 rest]]]; try exact Hother.
  destruct (exchangeLegs userAddress t0 t1) as [inEvent outEvent].
  destruct (JS.find_from _ _ _) as [[i tokenEvent]|]; discriminate.
Qed.

Lemma group_rows (rawTransactions : list BlockscoutTransaction) k g row :
  In (k, g) (groupByHash rawTransactions) -> In row g ->
  In row rawTransactions /\ hash row = k.
Proof.
  intros Hg Hrow. rewrite groupByHash_shape in Hg.
  apply in_map_iff in Hg as (h & [= -> <-] & _).
  apply filter_In in Hrow as [Hin Hhash]. split; [exact Hin|now apply eqb_true].
Qed.

(** X12: every transfer event returned by [getFeedEvents] was made from
    a row of the input with the hash of the event in which the viewer is the
    receiver (types of money coming in, address = the row's sender in lower
    case) or the sender (types of money going out, address = the row's
    receiver in lower case): no event is returned for a row that does not
    involve the viewer. *)
Theorem getFeedEvents_transfers_involve_viewer (this : BlockscoutAPI)
  (address : string) (rawTransactions : list BlockscoutTransaction)
  (out : list EventInterface) (e : TransferEvent.t) :
  fst (getFeedEvents this address rawTransactions) = Ok out ->
  In (Transfer e) out ->
  exists row,
    In row rawTransactions
    /\ hash row = TransferEvent.hash e
    /\ involves (JS.toLowerCase address) row
    /\ ((incoming (TransferEvent.type e) = true
         /\ JS.toLowerCase (to row) = JS.toLowerCase address
         /\ TransferEvent.address e = JS.toLowerCase (from row))
        \/ (outgoing (TransferEvent.type e) = true
            /\ JS.toLowerCase (from row) = JS.toLowerCase address
            /\ TransferEvent.address e = JS.toLowerCase (to row))).
Proof.
  unfold getFeedEvents. cbn [fst].
  destruct (feedEventsPushed _ _ _) as [pushed|] eqn:Hpushed; cbn; [|discriminate].
  intros [= <-] He. apply sort_In in He.
  destruct (forEach_push_In _ _ _ _ Hpushed He) as (k & g & Hg & Hcb).
  apply feedEventOfGroup_transfer in Hcb as (row & Hrow & Hhash & Hdir).
  destruct (group_rows _ _ _ _ Hg Hrow) as [Hin Hk].
  exists row. split; [exact Hin|]. split; [congruence|]. split; [|exact Hdir].
  unfold involves. tauto.
Qed.

(** X13: every transfer event returned by [getTokenTransactions] was
    made from a row of the input with the hash of the event that passes the
    stable-token filter, whose token symbol is the token asked for and in
    which the viewer is the receiver or the sender; the address of the
    event is the other end of that row, and its amount is the row's value
    negated exactly when the viewer is the sender. *)
Theorem getTokenTransactions_transfers (this : BlockscoutAPI)
  (address token : string) (rawTransactions : list BlockscoutTransaction)
  (out : list TokenEvent) (x : TokenTransfer.t) :
  fst (getTokenTransactions this address token rawTransactions) = Ok out ->
  In (TTransfer x) out ->
  exists row,
    In row rawTransactions
    /\ hash row = TokenTransfer.hash x
    /\ isStableTokenTx (fst (ensureTokenAddresses this)) row = true
    /\ tokenSymbol row = token
    /\ MoneyAmount.value (TokenTransfer.amount x)
       = signedGold (value row)
           (JS.toLowerCase (from row) =? JS.toLowerCase address)
    /\ ((incoming (TokenTransfer.type x) = true
         /\ JS.toLowerCase (to row) = JS.toLowerCase address
         /\ TokenTransfer.address x = JS.toLowerCase (from row))
        \/ (outgoing (TokenTransfer.type x) = true
            /\ JS.toLowerCase (from row) = JS.toLowerCase address
            /\ TokenTransfer.address x = JS.toLowerCase (to row))).
Proof.
  unfold getTokenTransactions. cbn [fst].
  destruct (tokenEventsPushed _ _ _ _) as [pushed|] eqn:Hpushed; cbn; [|discriminate].
  intros [= <-] He. apply sort_In, filter_In in He as [He Hcode].
  cbn in Hcode. apply eqb_true in Hcode.
  destruct (forEach_push_In _ _ _ _ Hpushed He) as (k & g & Hg & Hcb).
  pose proof (tokenEventOfGroup_hash _ _ _ _ _ _ Hcb) as Hhash. cbn in Hhash.
  apply tokenEventOfGroup_transfer in Hcb as (row & Hrow & Hstable & Hev).
  destruct (group_rows _ _ _ _ Hg Hrow) as [Hin Hk].
  apply tokenTransferEvent_direction in Hev as (x' & [= <-] & Hsym & Hval & Hdir).
  exists row. split; [exact Hin|]. split; [congruence|]. split; [exact Hstable|].
  split; [congruence|]. split; [exact Hval|exact Hdir].
Qed.

Lemma inGold_BN (v : Q) :
  inGold (BigNumber.BN v) = BigNumber.BN (BigNumber.round (v / inject_Z (10 ^ 18))).
Proof. reflexivity. Qed.

(** X14: for a row whose value is the integer [z], the amount printed in
    the event of [getTokenTransactions] is the number -z / 10^18 when the
    viewer is the sender of the row and z / 10^18 otherwise, with nothing
    lost to rounding. *)
Theorem signedGold_exact (v : string) (negate : bool) (x : Q) (z : Z) :
  newBigNumber v = BigNumber.BN x -> (x == inject_Z z)%Q ->
  exists q,
    signedGold v negate = BigNumber_toString (BigNumber.BN q)
    /\ (q * inject_Z (10 ^ 18) == inject_Z (if negate then - z else z))%Q.
Proof.
  intros Hv Hx. unfold signedGold. rewrite Hv.
  cbn [BigNumber.ofNumber BigNumber.multipliedBy]. rewrite inGold_BN.
  eexists. split; [reflexivity|]. apply round_gold.
  destruct negate; rewrite Hx; [rewrite inject_Z_opp|]; ring.
Qed.

End TransferProofs.

Lemma getFeedEvents_transfers_involve_viewer_witness :
  exists e row,
    fst (@getFeedEvents Demo.imports Demo.fresh Sample.viewer [Sample.received])
    = Ok [Transfer e]
    /\ In row [Sample.received]
    /\ TransferEvent.address e = JS.toLowerCase (from row).
Proof.
  destruct (fst (@getFeedEvents Demo.imports Demo.fresh Sample.viewer [Sample.received]))
    as [out|] eqn:Hout; [|vm_compute in Hout; discriminate].
  assert (Hshape : exists e, out = [Transfer e]).
  { vm_compute in Hout. injection Hout as <-. eexists. reflexivity. }
  destruct Hshape as [e ->].
  destruct (@getFeedEvents_transfers_involve_viewer Demo.imports Demo.fresh
              Sample.viewer [Sample.received] _ e Hout (or_introl eq_refl))
    as (row & Hrow & _ & _ & [(_ & _ & Haddr)|(_ & Hfrom & _)]).
  - exists e, row. auto.
  - destruct Hrow as [<-|[]]. vm_compute in Hfrom. discriminate.
Defined.

Lemma getTokenTransactions_transfers_witness :
  exists x row,
    fst (@getTokenTransactions Demo.imports Demo.fresh Sample.viewer "cUSD"
           Sample.feePaid) = Ok [TTransfer x]
    /\ In row Sample.feePaid
    /\ hash row = TokenTransfer.hash x
    /\ tokenSymbol row = "cUSD".
Proof.
  destruct (fst (@getTokenTransactions Demo.imports Demo.fresh Sample.viewer "cUSD"
                   Sample.feePaid)) as [out|] eqn:Hout;
    [|vm_compute in Hout; discriminate].
  assert (Hshape : exists x, out = [TTransfer x]).
  { vm_compute in Hout. injection Hout as <-. eexists. reflexivity. }
  destruct Hshape as [x ->].
  destruct (@getTokenTransactions_transfers Demo.imports Demo.fresh Sample.viewer
              "cUSD" Sample.feePaid _ x Hout (or_introl eq_refl))
    as (row & Hrow & Hhash & _ & Hsym & _).
  exists x, row. auto.
Defined.

Lemma signedGold_exact_witness :
  exists q,
    @signedGold Demo.imports "1500000000000000000" true
    = Demo.printDecimal (BigNumber.BN q)
    /\ (q * inject_Z (10 ^ 18) == inject_Z (- 1500000000000000000))%Q
    /\ @signedGold Demo.imports "1500000000000000000" true = "-1.5".
Proof.
  destruct (@signedGold_exact Demo.imports "1500000000000000000" true
              (inject_Z 1500000000000000000) 1500000000000000000
              eq_refl (Qeq_refl _)) as (q & Hq & Hexact).
  exists q. split; [exact Hq|]. split; [exact Hexact|reflexivity].
Defined.

(** ** Exchanges in the token feed *)

Section TokenExchangeProofs.
Context {imports : Imports}.

(** X15: in [getTokenTransactions] a group of two rows never fails and
    its outcome does not depend on the registry.  It gives an exchange event
    exactly when the token symbol of a leg is the token asked for; the
    amount is then in that token, so the event passes the final filter,
    and it is the in leg's value negated when the in leg has the symbol
    (also when both legs have it), the out leg's value otherwise. *)
Theorem tokenEventOfGroup_exchange (this : BlockscoutAPI)
  (userAddress token txhash : string) (t0 t1 : BlockscoutTransaction) :
  let inEvent := fst (exchangeLegs userAddress t0 t1) in
  let outEvent := snd (exchangeLegs userAddress t0 t1) in
  (forall other,
      tokenEventOfGroup other userAddress token [t0; t1] txhash
      = tokenEventOfGroup this userAddress token [t0; t1] txhash)
  /\ match tokenEventOfGroup this userAddress token [t0; t1] txhash with
     | Ok (Some (TExchange e)) =>
         TokenExchange.type e = EXCHANGE
         /\ TokenExchange.hash e = txhash
         /\ MoneyAmount.currencyCode (TokenExchange.amount e) = token
         /\ ((tokenSymbol inEvent = token
              /\ MoneyAmount.value (TokenExchange.amount e)
                 = signedGold (value inEvent) true)
             \/ (tokenSymbol inEvent <> token /\ tokenSymbol outEvent = token
                 /\ MoneyAmount.value (TokenExchange.amount e)
                    = signedGold (value outEvent) false))
         /\ MoneyAmount.currencyCode (TokenExchange.makerAmount e) = tokenSymbol inEvent
         /\ MoneyAmount.currencyCode (TokenExchange.takerAmount e) = tokenSymbol outEvent
     | Ok (Some (TTransfer _)) => False
     | Ok None => tokenSymbol inEvent <> token /\ tokenSymbol outEvent <> token
     | Throw _ => False
     end.
Proof.
  cbv zeta. split; [reflexivity|].
  unfold tokenEventOfGroup.
  destruct (exchangeLegs userAddress t0 t1) as [inEvent outEvent]. cbn [fst snd].
  cbn [JS.find_from].
  destruct (tokenSymbol inEvent =? token) eqn:Ein.
  - apply eqb_true in Ein. cbn. repeat split; auto.
  - apply eqb_false in Ein.
    destruct (tokenSymbol outEvent =? token) eqn:Eout.
    + apply eqb_true in Eout. cbn. repeat split; auto.
    + apply eqb_false in Eout. auto.
Qed.

End TokenExchangeProofs.

(** ** The stable-token rows *)

Section StableRowsProofs.
Context {imports : Imports}.

Lemma isStableTokenTx_lower_case this tx :
  isStableTokenTx this tx = true ->
  exists stable, stableTokenAddress this = Some stable /\ JS.toLowerCase stable = stable.
Proof.
  unfold isStableTokenTx. destruct (stableTokenAddress this) as [stable|]; cbn;
    [|discriminate].
  intros H. apply andb_true_iff in H as [H _]. apply eqb_true in H.
  exists stable. split; [reflexivity|]. rewrite <- H. apply toLowerCase_idempotent.
Qed.

Lemma filter_none {A} (p : A -> bool) (l : list A) :
  (forall x, p x = false) -> List.filter p l = [].
Proof.
  intros Hp. induction l as [|x l IH]; cbn; [reflexivity|]. now rewrite Hp.
Qed.

Lemma forEach_push_Ok {V E} (callback : V -> string -> result (option E))
  (P : E -> Prop) (m : JS.Map V) :
  (forall k v, In (k, v) m ->
               exists pushed, callback v k = Ok pushed
                              /\ forall e, pushed = Some e -> P e) ->
  exists events, forEach_push callback m = Ok events /\ Forall P events.
Proof.
  induction m as [|[k v] m IH]; cbn; intros Hall.
  - exists []. split; [reflexivity|constructor].
  - destruct (Hall k v (or_introl eq_refl)) as (pushed & -> & HP). cbn.
    destruct IH as (events & -> & Hevents); [intros; apply Hall; now right|]. cbn.
    eexists. split; [reflexivity|].
    destruct pushed as [e|]; [constructor; auto|exact Hevents].
Qed.

(** X16: the stable-token filter compares the lower-cased contract
    address of a row with the registry's stable-token address as it is
    stored.  When that address is unset or has an upper-case letter, no row
    passes, and [getTokenTransactions] returns, without failing, nothing but
    exchange events. *)
Theorem getTokenTransactions_only_exchanges (this : BlockscoutAPI)
  (address token : string) (rawTransactions : list BlockscoutTransaction) :
  (forall stable,
      stableTokenAddress (fst (ensureTokenAddresses this)) = Some stable ->
      JS.toLowerCase stable <> stable) ->
  (forall tx, isStableTokenTx (fst (ensureTokenAddresses this)) tx = false)
  /\ exists out,
      fst (getTokenTransactions this address token rawTransactions) = Ok out
      /\ Forall (fun e => exists x, e = TExchange x) out.
Proof.
  intros Hcase.
  assert (Hnone : forall tx, isStableTokenTx (fst (ensureTokenAddresses this)) tx = false).
  { intros tx. destruct (isStableTokenTx _ tx) eqn:E; [|reflexivity].
    apply isStableTokenTx_lower_case in E as (stable & Hs & Hl).
    now destruct (Hcase stable Hs). }
  split; [exact Hnone|].
  unfold getTokenTransactions, tokenEventsPushed. cbn [fst].
  destruct (forEach_push_Ok
              (tokenEventOfGroup (fst (ensureTokenAddresses this))
                 (JS.toLowerCase address) token)
              (fun e => exists x, e = TExchange x)
              (groupByHash rawTransactions)) as (pushed & -> & Hpushed).
  - intros k g _.
    assert (Hother :
      match pickTransfer (stableTokenTxsOf (fst (ensureTokenAddresses this)) g) with
      | Some event =>
          let* e := tokenTransferEvent (fst (ensureTokenAddresses this))
                      (JS.toLowerCase address) event k in Ok (Some e)
      | None => Ok None
      end = Ok None).
    { unfold stableTokenTxsOf. now rewrite (filter_none _ g Hnone). }
    unfold tokenEventOfGroup.
    destruct g as [|t0 [|t1 [|t2 rest]]];
      try (rewrite Hother; exists None; split; [reflexivity|discriminate]).
    destruct (exchangeLegs (JS.toLowerCase address) t0 t1) as [inEvent outEvent].
    destruct (JS.find_from _ _ _) as [[i tokenEvent]|].
    + eexists. split; [reflexivity|]. intros e [= <-]. eauto.
    + exists None. split; [reflexivity|discriminate].
  - cbn. eexists. split; [reflexivity|].
    eapply Permutation_Forall; [symmetry; apply sort_Permutation|].
    apply List.Forall_forall. intros e He. apply filter_In in He as [He _].
    rewrite List.Forall_forall in Hpushed. now apply Hpushed.
Qed.

Lemma sort_insert_ext {A} (f g : A -> A -> JS.number) (x : A) (l : list A) :
  (forall a b, f a b = g a b) -> JS.sort_insert f x l = JS.sort_insert g x l.
Proof.
  intros Hfg. induction l as [|y l IH]; cbn; [reflexivity|].
  now rewrite Hfg, IH.
Qed.

Lemma sort_ext {A} (f g : A -> A -> JS.number) (l : list A) :
  (forall a b, f a b = g a b) -> JS.sort f l = JS.sort g l.
Proof.
  intros Hfg. induction l as [|x l IH]; [reflexivity|].
  cbn [JS.sort foldr]. fold (JS.sort f l) (JS.sort g l).
  rewrite IH. now apply sort_insert_ext.
Qed.

Lemma byValueDesc_as_number (a b : BlockscoutTransaction) :
  byValueDesc a b = byTimestampDesc (fun tx => numberOf (value tx)) a b.
Proof.
  unfold byValueDesc, byTimestampDesc, numberOf.
  destruct (newBigNumber (value b)), (newBigNumber (value a)); reflexivity.
Qed.

(** X17: when the values of the rows are numbers, the rows handed to the
    fee-currency switch are the rows that pass the stable-token filter, in
    descending order of value, rows of equal value in the order of the
    group. *)
Theorem stableTokenTxsOf_sorted (this : BlockscoutAPI)
  (transactions : list BlockscoutTransaction) :
  Forall (fun tx => newBigNumber (value tx) <> BigNumber.BNaN) transactions ->
  let kept := List.filter (isStableTokenTx this) transactions in
  let sorted := stableTokenTxsOf this transactions in
  Permutation sorted kept
  /\ descending (fun tx => numberOf (value tx)) sorted
  /\ keepsOrderOfTies (fun tx => numberOf (value tx)) kept sorted.
Proof.
  intros Hnum. cbv zeta. unfold stableTokenTxsOf.
  rewrite (sort_ext _ _ _ byValueDesc_as_number).
  apply sort_by_timestamp.
  apply List.Forall_forall. intros tx Htx. apply filter_In in Htx as [Htx _].
  rewrite List.Forall_forall in Hnum. now apply numberOf_number, Hnum.
Qed.

End StableRowsProofs.

Lemma getTokenTransactions_only_exchanges_witness :
  @isStableTokenTx Sample.mixedCaseRegistry Sample.sent = false
  /\ fst (@getTokenTransactions Demo.imports Sample.mixedCaseRegistry Sample.viewer
            "cUSD" [Sample.sent]) = Ok [].
Proof.
  destruct (@getTokenTransactions_only_exchanges Demo.imports
              Sample.mixedCaseRegistry Sample.viewer "cUSD" [Sample.sent])
    as (Hnone & out & Hout & _).
  - intros stable Hs. vm_compute in Hs. injection Hs as <-.
    vm_compute. discriminate.
  - split; [apply Hnone|]. reflexivity.
Defined.

Lemma stableTokenTxsOf_sorted_witness :
  Forall (fun tx => Demo.readDecimal (value tx) <> BigNumber.BNaN) Sample.feePaid
  /\ @stableTokenTxsOf Demo.imports Demo.ready Sample.feePaid
     = [Sample.feePaidTransfer; Sample.feeTip; Sample.feeBase]
  /\ descending (fun tx => @numberOf Demo.imports (value tx))
       [Sample.feePaidTransfer; Sample.feeTip; Sample.feeBase].
Proof.
  assert (Hnum : Forall (fun tx => Demo.readDecimal (value tx) <> BigNumber.BNaN)
                   Sample.feePaid)
    by (repeat constructor; vm_compute; discriminate).
  split; [exact Hnum|].
  destruct (@stableTokenTxsOf_sorted Demo.imports Demo.ready Sample.feePaid Hnum)
    as (_ & Hdesc & _).
  split; [reflexivity|exact Hdesc].
Defined.

(** ** When the general feed returns *)

Section FeedReturnsProofs.
Context {imports : Imports}.

Lemma resolve_foreign (userAddress eventToAddress eventFromAddress
  attestationsAddress escrowAddress : string) :
  eventToAddress <> userAddress -> eventFromAddress <> userAddress ->
  resolveTransferEventType userAddress eventToAddress eventFromAddress
    attestationsAddress escrowAddress = Throw "No valid event type found ".
Proof.
  intros Ht Hf. apply eqb_false in Ht, Hf. unfold resolveTransferEventType.
  now rewrite Ht, Hf, !andb_false_r.
Qed.

Lemma forEach_push_fails {V E} (callback : V -> string -> result (option E))
  (m : JS.Map V) k v msg :
  In (k, v) m -> callback v k = Throw msg ->
  exists msg', forEach_push callback m = Throw msg'.
Proof.
  induction m as [|[k' v'] m IH]; cbn; [tauto|].
  intros [[= -> ->]|Hin] Hcb.
  - rewrite Hcb. cbn. eauto.
  - destruct (callback v' k'); cbn; [|eauto].
    destruct (IH Hin Hcb) as [msg' ->]. cbn. eauto.
Qed.

Lemma exchangeLegs_Forall (P : BlockscoutTransaction -> Prop) userAddress t0 t1 :
  P t0 -> P t1 ->
  P (fst (exchangeLegs userAddress t0 t1)) /\ P (snd (exchangeLegs userAddress t0 t1)).
Proof.
  intros H0 H1. unfold exchangeLegs. destruct (_ =? _); cbn; auto.
Qed.

(** X18: [getFeedEvents] returns, with one event for each distinct hash,
    when after [ensureTokenAddresses] the attestation and escrow addresses
    are there, the token of every row's contract address is found, and the
    viewer is the receiver or the sender of every row. *)
Theorem getFeedEvents_returns (this : BlockscoutAPI) (address : string)
  (rawTransactions : list BlockscoutTransaction) :
  let ready := fst (ensureTokenAddresses this) in
  (exists a, getAttestationAddress ready = Ok a) ->
  (exists a, getEscrowAddress ready = Ok a) ->
  Forall (fun row =>
            (exists token, getTokenAtAddress ready (contractAddress row) = Ok token)
            /\ involves (JS.toLowerCase address) row) rawTransactions ->
  exists out,
    fst (getFeedEvents this address rawTransactions) = Ok out
    /\ length out = length (firstSeen (map hash rawTransactions)).
Proof.
  cbv zeta. intros [attestations Ha] [escrow He] Hrows.
  rewrite List.Forall_forall in Hrows.
  unfold getFeedEvents, feedEventsPushed. cbn [fst].
  destruct (forEach_push_Ok
              (feedEventOfGroup (fst (ensureTokenAddresses this))
                 (JS.toLowerCase address))
              (fun _ => True) (groupByHash rawTransactions))
    as (pushed & Hpushed & _).
  - intros k g Hg.
    assert (Hg' : forall row, In row g ->
        (exists token, getTokenAtAddress (fst (ensureTokenAddresses this))
                         (contractAddress row) = Ok token)
        /\ involves (JS.toLowerCase address) row).
    { intros row Hrow. apply Hrows. eapply groupByHash_rows; eassumption. }
    assert (Hne : g <> []).
    { rewrite groupByHash_shape in Hg. apply in_map_iff in Hg as (h & [= -> <-] & Hh).
      apply firstSeen_In, in_map_iff in Hh as (tx & Htx & Hin). intros Hnil.
      assert (Hmem : In tx (rowsOf k rawTransactions))
        by (apply filter_In; split; [exact Hin|now apply eqb_true]).
      rewrite Hnil in Hmem. contradiction. }
    assert (Hfirst : forall t0 rest, g = t0 :: rest ->
      exists e, feedEventOfGroup (fst (ensureTokenAddresses this))
                  (JS.toLowerCase address) [t0] k = Ok (Some e)).
    { intros t0 rest ->. destruct (Hg' t0 (or_introl eq_refl)) as [[token Ht] Hinv].
      unfold feedEventOfGroup. rewrite Ha, He. cbn.
      destruct (resolve_involved (JS.toLowerCase address) (JS.toLowerCase (to t0))
                  (JS.toLowerCase (from t0)) attestations escrow Hinv)
        as [[type counterparty] ->]. cbn. rewrite Ht. cbn. eauto. }
    destruct g as [|t0 [|t1 [|t2 rest]]]; [contradiction| | |].
    + destruct (Hfirst t0 [] eq_refl) as [e Hev]. rewrite Hev. eauto.
    + destruct (exchangeLegs_Forall
                  (fun row => exists token,
                       getTokenAtAddress (fst (ensureTokenAddresses this))
                         (contractAddress row) = Ok token)
                  (JS.toLowerCase address) t0 t1)
        as [[inSymbol Hin] [outSymbol Hout]].
      { apply Hg'. now left. }
      { apply Hg'. right. now left. }
      unfold feedEventOfGroup.
      destruct (exchangeLegs (JS.toLowerCase address) t0 t1) as [inEvent outEvent].
      cbn [fst snd] in Hin, Hout. rewrite Hin. cbn. rewrite Hout. cbn. eauto.
    + destruct (Hfirst t0 (t1 :: t2 :: rest) eq_refl) as [e Hev].
      rewrite (feedEventOfGroup_first _ _ _ _ t0 (t1 :: t2 :: rest));
        [|cbn; lia|reflexivity].
      rewrite Hev. eauto.
  - rewrite Hpushed. cbn. eexists. split; [reflexivity|].
    rewrite (Permutation_length (sort_Permutation _ pushed)).
    rewrite <- groupByHash_keys, <- (length_map event_hash pushed). f_equal.
    refine (proj2 (forEach_push_hashes _ event_hash _ _ _ Hpushed) _).
    + intros g k e Hev.
      pose proof (feedEventOfGroup_hash (fst (ensureTokenAddresses this))
                    (JS.toLowerCase address) g k) as H.
      now rewrite Hev in H.
    + intros g k Hev.
      pose proof (feedEventOfGroup_hash (fst (ensureTokenAddresses this))
                    (JS.toLowerCase address) g k) as H.
      now rewrite Hev in H.
Qed.

(** X19: one row is enough to make [getFeedEvents] fail: when the rows
    of some hash are not exactly two and the first of them has neither the
    viewer as its receiver nor as its sender, the feed throws and returns no
    event at all, whatever the other rows are. *)
Theorem getFeedEvents_fails_on_foreign_row (this : BlockscoutAPI) (address : string)
  (rawTransactions : list BlockscoutTransaction) (row : BlockscoutTransaction)
  (rest : list BlockscoutTransaction) :
  rowsOf (hash row) rawTransactions = row :: rest ->
  length rest <> 1 ->
  ~ involves (JS.toLowerCase address) row ->
  exists msg, fst (getFeedEvents this address rawTransactions) = Throw msg.
Proof.
  intros Hgroup Hlen Hforeign.
  assert (Hg : In (hash row, row :: rest) (groupByHash rawTransactions)).
  { rewrite groupByHash_shape, <- Hgroup. apply in_map_iff.
    exists (hash row). split; [reflexivity|].
    apply firstSeen_In, in_map.
    assert (Hin : In row (rowsOf (hash row) rawTransactions))
      by (rewrite Hgroup; now left).
    apply filter_In in Hin. tauto. }
  assert (Hthrow : exists msg,
    feedEventOfGroup (fst (ensureTokenAddresses this)) (JS.toLowerCase address)
      (row :: rest) (hash row) = Throw msg).
  { rewrite (feedEventOfGroup_first _ _ _ _ row rest); [|cbn; lia|reflexivity].
    unfold feedEventOfGroup.
    destruct (getAttestationAddress _); cbn; [|eauto].
    destruct (getEscrowAddress _); cbn; [|eauto].
    rewrite resolve_foreign; [cbn; eauto| |]; unfold involves in Hforeign; tauto. }
  destruct Hthrow as [msg Hthrow].
  destruct (forEach_push_fails _ _ _ _ _ Hg Hthrow) as [msg' Hfail].
  exists msg'. unfold getFeedEvents, feedEventsPushed. cbn [fst].
  now rewrite Hfail.
Qed.

End FeedReturnsProofs.

Lemma getFeedEvents_returns_witness :
  exists out,
    fst (@getFeedEvents Demo.imports Demo.fresh Sample.viewer Sample.ties) = Ok out
    /\ length out = 3.
Proof.
  destruct (@getFeedEvents_returns Demo.imports Demo.fresh Sample.viewer Sample.ties)
    as (out & Hout & Hlen).
  - eexists. reflexivity.
  - eexists. reflexivity.
  - repeat constructor; try (eexists; reflexivity);
      solve [left; reflexivity | right; reflexivity].
  - exists out. split; [exact Hout|]. rewrite Hlen. reflexivity.
Defined.

Lemma getFeedEvents_fails_on_foreign_row_witness :
  exists msg,
    fst (@getFeedEvents Demo.imports Demo.fresh Sample.viewer
           (Sample.ties ++ [Sample.legA])) = Throw msg.
Proof.
  apply (@getFeedEvents_fails_on_foreign_row Demo.imports Demo.fresh Sample.viewer
           (Sample.ties ++ [Sample.legA]) Sample.legA []).
  - reflexivity.
  - cbn. lia.
  - intros [H|H]; vm_compute in H; discriminate.
Defined.
